(** * LiveShell audio configuration: encoder and blind decoder

    A shallow embedding of [sample/encoder.py] and [sample/decoder.py].

    Conventions of the embedding:
    - a Python [int] is a [Z]; a byte is a [Z] in [0, 256) ([is_byte]);
      a [bytes] value or a list of ints is a [list Z];
    - an index, a length or a byte cap is a [nat];
    - a Python [str] is the list of its code points ([pystr]);
    - a raised exception is the [inl] of a [sum];
    - a sample of the decoder's float32 buffer is a [Q]: the samples are
      16-bit integers and, after a stereo downmix, halves of integers, all
      of them exact in float32;
    - a [float] is a binary64 [PrimFloat.float]. *)

From Stdlib Require Import ZArith QArith List Lia Bool Arith Sorted.
From Stdlib Require Import Floats.
Import ListNotations.

Local Close Scope Q_scope.
Local Open Scope Z_scope.

(** ** Python values shared by both programs *)

Definition is_byte (b : Z) : Prop := 0 <= b < 256.

Definition pystr := list Z.

(** [l[a:b]] for in-range, non-negative [a <= b]. *)
Definition slice {A : Type} (l : list A) (a b : nat) : list A :=
  firstn (b - a) (skipn a l).

(** [[x] * n] *)
Definition ones (n : nat) : list Z := repeat 1 n.

(** ** The encoder, [sample/encoder.py] *)

Module Encoder.

Definition BIT1 : list Z :=
  [ 0; 3276; 0; -3276;
    0; 3276; 0; -3276;
    0; 3276; 0; -3276;
    0; 3276; 0; -3276;
    0; 3276; 0; -3276;
    0; 3276; 0; -3276;
    0; 3276; 0; -3276;
    0; 3276; 0; -3276 ].

Definition BIT0 : list Z :=
  [ 0; 2317; 3276; 2317;
    0; -2317; -3276; -2317;
    0; 2317; 3276; 2317;
    0; -2317; -3276; -2317;
    0; 2317; 3276; 2317;
    0; -2317; -3276; -2317;
    0; 2317; 3276; 2317;
    0; -2317; -3276; -2317 ].

Definition BIT_SAMPLES : nat := 32.
Definition PREAMBLE_ONES : nat := 12.
Definition POSTAMBLE_ONES : nat := 12.
Definition REPEAT : nat := 3.

Inductive device := ls2 | pro | lsx.

Definition DEVICE_SAMPLE_RATE (d : device) : Z :=
  match d with
  | ls2 => 16000
  | pro => 44100
  | lsx => 48000
  end.

(** One turn of the inner [for _ in range(8)] loop. *)
Definition crc_shift (crc : Z) : Z :=
  if Z.land crc 0x8000 =? 0
  then Z.land (Z.shiftl crc 1) 0xFFFF
  else Z.land (Z.lxor (Z.shiftl crc 1) 0x1021) 0xFFFF.

Definition crc16_xmodem (data : list Z) : Z :=
  fold_left (fun crc b => Nat.iter 8 crc_shift (Z.lxor crc (Z.shiftl b 8)))
            data 0x0000.

(** [(b >> i) & 1] for [i] in [range(7, -1, -1)]. *)
Definition data_bits_of (b : Z) : list Z :=
  map (fun i => Z.land (Z.shiftr b i) 1) [7; 6; 5; 4; 3; 2; 1; 0].

Fixpoint uart_bits (payload : list Z) : list Z :=
  match payload with
  | [] => []
  | b :: rest => (0 :: data_bits_of b) ++ [1] ++ uart_bits rest
  end.

(** [str.encode("utf-8")] on one code point; a surrogate raises. *)
Definition utf8_encode_char (c : Z) : option (list Z) :=
  if c <? 0 then None
  else if c <? 0x80 then Some [c]
  else if c <? 0x800 then
    Some [Z.lor 0xC0 (Z.shiftr c 6); Z.lor 0x80 (Z.land c 0x3F)]
  else if c <? 0x10000 then
    if (0xD800 <=? c) && (c <=? 0xDFFF) then None
    else Some [Z.lor 0xE0 (Z.shiftr c 12);
               Z.lor 0x80 (Z.land (Z.shiftr c 6) 0x3F);
               Z.lor 0x80 (Z.land c 0x3F)]
  else if c <? 0x110000 then
    Some [Z.lor 0xF0 (Z.shiftr c 18);
          Z.lor 0x80 (Z.land (Z.shiftr c 12) 0x3F);
          Z.lor 0x80 (Z.land (Z.shiftr c 6) 0x3F);
          Z.lor 0x80 (Z.land c 0x3F)]
  else None.

Fixpoint utf8_encode (text : pystr) : option (list Z) :=
  match text with
  | [] => Some []
  | c :: rest =>
      match utf8_encode_char c, utf8_encode rest with
      | Some bs, Some bs' => Some (bs ++ bs')
      | _, _ => None
      end
  end.

(** [int(v) * amp_scale]: the int is converted to the nearest double
    (exact for the template values). *)
Definition float_of_int (v : Z) : float :=
  if v <? 0 then PrimFloat.opp (PrimFloat.of_uint63 (Uint63.of_Z (- v)))
  else PrimFloat.of_uint63 (Uint63.of_Z v).

(** The integer nearest to [m * 2^e], halves going to the even neighbour. *)
Definition round_half_even (m e : Z) : Z :=
  if 0 <=? e then m * 2 ^ e
  else
    let d := 2 ^ (- e) in
    let q := m / d in
    let r := m mod d in
    if 2 * r <? d then q
    else if d <? 2 * r then q + 1
    else if Z.even q then q else q + 1.

(** [int(round(x))]; [None] where Python raises (infinities, NaN). *)
Definition py_round (x : float) : option Z :=
  match Prim2SF x with
  | S754_zero _ => Some 0
  | S754_finite s m e =>
      let v := round_half_even (Zpos m) e in
      Some (if s then - v else v)
  | _ => None
  end.

(** The inner [scale(arr)] of [bits_to_pcm]. *)
Definition scale_sample (amp_scale : float) (v : Z) : option Z :=
  match py_round (PrimFloat.mul (float_of_int v) amp_scale) with
  | Some sv =>
      let sv := if 32767 <? sv then 32767 else sv in
      let sv := if sv <? -32768 then -32768 else sv in
      Some sv
  | None => None
  end.

Fixpoint scale (amp_scale : float) (arr : list Z) : option (list Z) :=
  match arr with
  | [] => Some []
  | v :: rest =>
      match scale_sample amp_scale v, scale amp_scale rest with
      | Some sv, Some out => Some (sv :: out)
      | _, _ => None
      end
  end.

(** [int(s).to_bytes(2, "little", signed=True)] for [s] in the int16 range. *)
Definition to_bytes_le16 (s : Z) : list Z :=
  let u := s mod 65536 in [u mod 256; u / 256].

(** The [out += ...] loop of [bits_to_pcm] over given templates:
    a bit is tested for truth ([b1 if b else b0]). *)
Fixpoint render (b0 b1 : list Z) (bits : list Z) : list Z :=
  match bits with
  | [] => []
  | b :: rest =>
      flat_map to_bytes_le16 (if b =? 0 then b0 else b1) ++ render b0 b1 rest
  end.

(** [None] stands for the [ValueError] of the amplitude check. *)
Definition bits_to_pcm (bits : list Z) (amp_scale : float) : option (list Z) :=
  if negb (PrimFloat.ltb 0%float amp_scale && PrimFloat.leb amp_scale 1%float)
  then None
  else
    match scale amp_scale BIT0, scale amp_scale BIT1 with
    | Some b0, Some b1 => Some (render b0 b1 bits)
    | _, _ => None
    end.

(** [text + "\n"] unless [text.endswith("\n")]. *)
Definition ensure_newline (text : pystr) : pystr :=
  match rev text with
  | 10 :: _ => text
  | _ => text ++ [10]
  end.

(** [bytes([(crc >> 8) & 0xFF, crc & 0xFF])] *)
Definition crc_trailer (crc : Z) : list Z :=
  [Z.land (Z.shiftr crc 8) 0xFF; Z.land crc 0xFF].

Definition frame_payload (data : list Z) : list Z :=
  data ++ crc_trailer (crc16_xmodem data).

(** [bits = [1]*PREAMBLE_ONES; bits += uart_bits(payload);
     bits += [1]*POSTAMBLE_ONES; bits *= REPEAT] *)
Definition one_frame (payload : list Z) : list Z :=
  ones PREAMBLE_ONES ++ uart_bits payload ++ ones POSTAMBLE_ONES.

Definition bit_stream (payload : list Z) : list Z :=
  concat (repeat (one_frame payload) REPEAT).

(** What [main] writes into the WAV container. *)
Record wav := {
  nchannels : Z;
  sampwidth : Z;
  framerate : Z;
  frames : list Z
}.

(** [main], from the text read from the input file on. [sample_rate] is the
    [--sample-rate] override ([0] selects the device default). *)
Definition main (text : pystr) (dev : device) (sample_rate : Z)
    (amp : float) : option wav :=
  let sr := if 0 <? sample_rate then sample_rate else DEVICE_SAMPLE_RATE dev in
  let text := ensure_newline text in
  match utf8_encode text with
  | None => None
  | Some payload =>
      let bits := bit_stream (frame_payload payload) in
      match bits_to_pcm bits amp with
      | None => None
      | Some pcm_bytes =>
          Some {| nchannels := 1; sampwidth := 2; framerate := sr;
                  frames := pcm_bytes |}
      end
  end.

End Encoder.

(** ** The decoder, [sample/decoder.py] *)

Module Decoder.

Definition BIT_SAMPLES : nat := 32.

(** The error kinds: the [ValueError] of [read_wav_int16], the [ValueError]
    of the block-count check and the final [RuntimeError]. *)
Inductive decode_error :=
| UnsupportedFormat
| InsufficientData
| NoValidFrame.

(** [np.frombuffer(raw, dtype="<i2")]: little-endian signed 16-bit samples
    (a trailing odd byte makes numpy raise; it is dropped here). *)
Fixpoint frombuffer_i2 (raw : list Z) : list Z :=
  match raw with
  | lo :: hi :: rest =>
      let u := lo + 256 * hi in
      (if u <? 32768 then u else u - 65536) :: frombuffer_i2 rest
  | _ => []
  end.

(** [data.reshape(-1, 2).mean(axis=1)]: the two channels averaged (numpy
    refuses an odd number of samples; the odd one is dropped here). *)
Fixpoint downmix (data : list Z) : list Q :=
  match data with
  | l :: r :: rest => Qmake (l + r) 2 :: downmix rest
  | _ => []
  end.

(** [read_wav_int16]; the sample rate it also returns is never used. *)
Definition read_wav_int16 (w : Encoder.wav) : decode_error + list Q :=
  if negb (Encoder.sampwidth w =? 2) then inl UnsupportedFormat
  else
    let data := frombuffer_i2 (Encoder.frames w) in
    if Encoder.nchannels w =? 2 then inr (downmix data)
    else if negb (Encoder.nchannels w =? 1) then inl UnsupportedFormat
    else inr (map inject_Z data).

Definition crc_shift (poly crc : Z) : Z :=
  if Z.land crc 0x8000 =? 0
  then Z.land (Z.shiftl crc 1) 0xFFFF
  else Z.land (Z.lxor (Z.shiftl crc 1) poly) 0xFFFF.

Definition crc16_gen (data : list Z) (poly init : Z) : Z :=
  Z.land
    (fold_left (fun crc b => Nat.iter 8 (crc_shift poly)
                               (Z.lxor crc (Z.shiftl b 8)))
               data init)
    0xFFFF.

Definition crc16_xmodem (data : list Z) : Z := crc16_gen data 0x1021 0x0000.

Definition crc16_ccitt_false (data : list Z) : Z :=
  crc16_gen data 0x1021 0xFFFF.

(** [for b in data_bits: val = (val << 1) | (b & 1)] *)
Definition msb_first (data_bits : list Z) : Z :=
  fold_left (fun val b => Z.lor (Z.shiftl val 1) (Z.land b 1)) data_bits 0.

(** The [while] loop of [bits_to_bytes_uart]. [budget] is
    [max_bytes - len(out)]: the loop runs while it is positive and a byte
    appended to [out] lowers it by one. *)
Fixpoint uart_loop (bits : list Z) (budget : nat) (out : list Z) (i : nat)
    : list Z * nat :=
  match budget with
  | O => (out, i)
  | S budget' =>
      if negb (i + 10 <=? length bits)%nat then (out, i)
      else if negb (nth i bits 0 =? 0) then (out, i)
      else if (length bits <=? i + 9)%nat then (out, i)
      else
        let data_bits := slice bits (i + 1) (i + 9) in
        let stop := nth (i + 9) bits 0 in
        if negb (stop =? 1) then (out, i)
        else uart_loop bits budget' (out ++ [msb_first data_bits]) (i + 10)
  end.

Definition bits_to_bytes_uart (bits : list Z) (start_pos max_bytes : nat)
    : list Z * nat :=
  uart_loop bits max_bytes [] start_pos.

Definition reverse_bits_in_byte (b : Z) : Z :=
  fst (Nat.iter 8
         (fun rx => (Z.lor (Z.shiftl (fst rx) 1) (Z.land (snd rx) 1),
                     Z.shiftr (snd rx) 1))
         (0, b)).

(** The inner [for crc_fn in (...)] loop: the first checksum that matches. *)
Fixpoint first_crc_match (fns : list (list Z -> Z)) (body : list Z) (want : Z)
    : option (list Z) :=
  match fns with
  | [] => None
  | crc_fn :: rest =>
      if crc_fn body =? want then Some body
      else first_crc_match rest body want
  end.

(** The outer [for cand in candidates] loop. *)
Fixpoint first_valid (candidates : list (list Z)) : option (list Z) :=
  match candidates with
  | [] => None
  | cand :: rest =>
      if (length cand <? 3)%nat then first_valid rest
      else
        let body := firstn (length cand - 2) cand in
        let crc_bytes := skipn (length cand - 2) cand in
        let want := Z.lor (Z.shiftl (nth 0 crc_bytes 0) 8) (nth 1 crc_bytes 0) in
        match first_crc_match [crc16_xmodem; crc16_ccitt_false] body want with
        | Some b => Some b
        | None => first_valid rest
        end
  end.

Definition try_bit_order_and_crc (payload : list Z) : option (list Z) :=
  if (length payload <? 3)%nat then None
  else first_valid [payload; map reverse_bits_in_byte payload].

(** The first loop of [find_frames]: [i] is the index of the head of [bits]
    in the whole sequence. *)
Fixpoint scan_runs (bits : list Z) (i run : nat) (starts : list nat)
    : list nat :=
  match bits with
  | [] => starts
  | b :: rest =>
      if b =? 1 then scan_runs rest (S i) (S run) starts
      else scan_runs rest (S i) 0
             (if (8 <=? run)%nat then starts ++ [i] else starts)
  end.

(** The second loop of [find_frames]. *)
Fixpoint dedup_loop (starts : list nat) (last : Z) (dedup : list nat)
    : list nat :=
  match starts with
  | [] => dedup
  | s :: rest =>
      if 50 <? Z.of_nat s - last
      then dedup_loop rest (Z.of_nat s) (dedup ++ [s])
      else dedup_loop rest last dedup
  end.

Definition find_frames (bits : list Z) : list nat :=
  dedup_loop (scan_runs bits 0 0 []) (- 10 ^ 9) [].

(** *** [bytes.decode("utf-8")]

    The decoder of CPython, byte by byte: [Idle] between characters,
    [Pending needed cp lo hi] inside a multi-byte sequence that still needs
    [needed] continuation bytes, the next one within [lo..hi]. An item
    [None] marks a decoding error: the maximal ill-formed prefix, which
    [errors="replace"] turns into one U+FFFD and strict decoding into
    [UnicodeDecodeError]. *)
Inductive utf8_state :=
| Idle
| Pending (needed : nat) (cp lo hi : Z).

Definition utf8_start (b : Z) : list (option Z) * utf8_state :=
  if (0 <=? b) && (b <=? 0x7F) then ([Some b], Idle)
  else if (0xC2 <=? b) && (b <=? 0xDF) then
    ([], Pending 1 (Z.land b 0x1F) 0x80 0xBF)
  else if b =? 0xE0 then ([], Pending 2 (Z.land b 0x0F) 0xA0 0xBF)
  else if b =? 0xED then ([], Pending 2 (Z.land b 0x0F) 0x80 0x9F)
  else if (0xE1 <=? b) && (b <=? 0xEF) then
    ([], Pending 2 (Z.land b 0x0F) 0x80 0xBF)
  else if b =? 0xF0 then ([], Pending 3 (Z.land b 0x07) 0x90 0xBF)
  else if b =? 0xF4 then ([], Pending 3 (Z.land b 0x07) 0x80 0x8F)
  else if (0xF1 <=? b) && (b <=? 0xF3) then
    ([], Pending 3 (Z.land b 0x07) 0x80 0xBF)
  else ([None], Idle).

Definition utf8_step (st : utf8_state) (b : Z)
    : list (option Z) * utf8_state :=
  match st with
  | Idle => utf8_start b
  | Pending needed cp lo hi =>
      if (lo <=? b) && (b <=? hi) then
        let cp' := Z.lor (Z.shiftl cp 6) (Z.land b 0x3F) in
        match needed with
        | S (S n) => ([], Pending (S n) cp' 0x80 0xBF)
        | _ => ([Some cp'], Idle)
        end
      else
        let (out, st') := utf8_start b in (None :: out, st')
  end.

Fixpoint utf8_scan (st : utf8_state) (data : list Z) : list (option Z) :=
  match data with
  | [] => match st with Idle => [] | Pending _ _ _ _ => [None] end
  | b :: rest =>
      let (out, st') := utf8_step st b in out ++ utf8_scan st' rest
  end.

(** [body.decode("utf-8")]; [None] stands for [UnicodeDecodeError]. *)
Fixpoint all_decoded (items : list (option Z)) : option pystr :=
  match items with
  | [] => Some []
  | Some c :: rest =>
      match all_decoded rest with
      | Some t => Some (c :: t)
      | None => None
      end
  | None :: _ => None
  end.

Definition decode_utf8_strict (body : list Z) : option pystr :=
  all_decoded (utf8_scan Idle body).

(** [body.decode("utf-8", errors="replace")] *)
Definition decode_utf8_replace (body : list Z) : pystr :=
  map (fun item => match item with Some c => c | None => 0xFFFD end)
      (utf8_scan Idle body).

(** [text.replace("\r\n", "\n")] *)
Fixpoint replace_crlf (text : pystr) : pystr :=
  match text with
  | [] => []
  | c :: rest =>
      match rest with
      | d :: rest' =>
          if (c =? 13) && (d =? 10) then 10 :: replace_crlf rest'
          else c :: replace_crlf rest
      | [] => [c]
      end
  end.

Fixpoint lstrip_nul (text : pystr) : pystr :=
  match text with
  | c :: rest => if c =? 0 then lstrip_nul rest else text
  | [] => []
  end.

(** [text.strip("\x00")] *)
Definition strip_nul (text : pystr) : pystr :=
  rev (lstrip_nul (rev (lstrip_nul text))).

(** The [try: ... except UnicodeDecodeError: ...] of [decode_with_polarity]
    and the clean-up that follows it. *)
Definition body_text (body : list Z) : pystr :=
  let text :=
    match decode_utf8_strict body with
    | Some t => t
    | None => decode_utf8_replace body
    end in
  strip_nul (replace_crlf text).

(** One turn of [for s in starts[:50]] on the state
    [(best_text, best_len)]. *)
Definition try_start (bits : list Z) (best : option pystr * Z) (s : nat)
    : option pystr * Z :=
  let (payload, endpos) := bits_to_bytes_uart bits s 10000 in
  if (length payload <? 10)%nat then best
  else
    match try_bit_order_and_crc payload with
    | None => best
    | Some body =>
        let text := body_text body in
        if snd best <? Z.of_nat (length text)
        then (Some text, Z.of_nat (length text))
        else best
    end.

(** [[(1 - b) if flip else b for b in raw_bits]] *)
Definition apply_polarity (raw_bits : list Z) (flip : bool) : list Z :=
  map (fun b => if flip then 1 - b else b) raw_bits.

Definition decode_with_polarity (raw_bits : list Z) (flip : bool)
    : option pystr :=
  let bits := apply_polarity raw_bits flip in
  let starts := find_frames bits in
  fst (fold_left (try_start bits) (firstn 50 starts) (None, -1)).

(** Lines 257-268: the choice between the two polarities. *)
Definition decode_bits (raw_bits : list Z) : decode_error + pystr :=
  let t0 := decode_with_polarity raw_bits false in
  let t1 := decode_with_polarity raw_bits true in
  match t0, t1 with
  | None, None => inl NoValidFrame
  | None, Some t1 => inr t1
  | Some t0, None => inr t0
  | Some t0, Some t1 =>
      if (length t1 <=? length t0)%nat then inr t0 else inr t1
  end.

(** [pcm[:n_blocks * BIT_SAMPLES].reshape(n_blocks, BIT_SAMPLES)] *)
Fixpoint reshape_blocks (n_blocks : nat) (pcm : list Q) : list (list Q) :=
  match n_blocks with
  | O => []
  | S n => firstn BIT_SAMPLES pcm :: reshape_blocks n (skipn BIT_SAMPLES pcm)
  end.

Section Classifier.

(** [normalize_blocks] followed by [kmeans2(blocks_n, iters=40, seed=1)]
    is floating-point arithmetic driven by numpy's random generator and
    is not modelled. What the decoder uses of it is the label of each
    block, [labels[i] = (d1[i] < d0[i])]: with the final centroids fixed,
    a function of the samples of block [i] alone. [nearer_c1 blocks b] is
    that comparison for block [b], the centroids having been learnt from
    [blocks]. *)
Variable nearer_c1 : list (list Q) -> list Q -> bool.

Definition kmeans2_labels (blocks : list (list Q)) : list Z :=
  map (fun b => Z.b2z (nearer_c1 blocks b)) blocks.

(** [decode_config_string], from the sample buffer on. *)
Definition decode_pcm (pcm : list Q) : decode_error + pystr :=
  let n_blocks := (length pcm / BIT_SAMPLES)%nat in
  if (n_blocks <? 200)%nat then inl InsufficientData
  else
    let blocks := reshape_blocks n_blocks pcm in
    let raw_bits := kmeans2_labels blocks in
    decode_bits raw_bits.

Definition decode_config_string (w : Encoder.wav) : decode_error + pystr :=
  match read_wav_int16 w with
  | inl e => inl e
  | inr pcm => decode_pcm pcm
  end.

End Classifier.

End Decoder.

(** ** Vocabulary of the statements *)

Import Decoder.

(** The ten bits at [i] form a UART frame: they are all there, the start bit
    is 0 and the stop bit is 1. *)
Definition frame_ok (bits : list Z) (i : nat) : bool :=
  (i + 10 <=? length bits)%nat
  && (nth i bits 0 =? 0)
  && (nth (i + 9) bits 0 =? 1).

(** The byte carried by the frame at [i], most significant bit first. *)
Definition frame_val (bits : list Z) (i : nat) : Z :=
  msb_first (slice bits (i + 1) (i + 9)).

(** The bytes of the [k] consecutive frames that begin at [start]. *)
Definition frame_bytes (bits : list Z) (start k : nat) : list Z :=
  map (fun j => frame_val bits (start + 10 * j)%nat) (seq 0 k).

Definition all_bytes : list Z := map Z.of_nat (seq 0 256).

(** The number of consecutive 1 bits at the head of a reversed prefix. *)
Fixpoint trailing_ones (rev_prefix : list Z) : nat :=
  match rev_prefix with
  | b :: rest => if b =? 1 then S (trailing_ones rest) else 0%nat
  | [] => 0%nat
  end.

(** The length of the run of 1 bits that ends just before position [s]. *)
Definition run_before (bits : list Z) (s : nat) : nat :=
  trailing_ones (rev (firstn s bits)).

(** Position [s] holds a bit other than 1 (on a 0/1 sequence: a 0 bit) that
    ends a run of at least 8 consecutive 1 bits. *)
Definition run_end (bits : list Z) (s : nat) : Prop :=
  (s < length bits)%nat
  /\ nth s bits 0 <> 1
  /\ (8 <= s)%nat
  /\ forall j, (s - 8 <= j < s)%nat -> nth j bits 0 = 1.

Definition run_endb (bits : list Z) (s : nat) : bool :=
  negb (nth s bits 0 =? 1) && (8 <=? run_before bits s)%nat.

(** The start candidates before de-duplication, in position order. *)
Definition run_ends (bits : list Z) : list nat :=
  filter (run_endb bits) (seq 0 (length bits)).

(** [a] and [b] are more than 50 positions apart, [a] first. *)
Definition far_apart (a b : nat) : Prop := (a + 50 < b)%nat.

(** The text a start candidate yields: its frame is parsed, has at least
    10 bytes, and the resolver validates it. *)
Definition candidate_text (bits : list Z) (s : nat) : option pystr :=
  let payload := fst (bits_to_bytes_uart bits s 10000) in
  if (length payload <? 10)%nat then None
  else option_map body_text (try_bit_order_and_crc payload).

(** The text candidate [s] contributes, if any. *)
Definition offered (cand : nat -> option pystr) (s : nat) : list pystr :=
  match cand s with
  | Some t => [t]
  | None => []
  end.

(** The texts of the validated candidates of one polarity, in candidate
    order, over the first 50 start candidates. *)
Definition validated_texts (bits : list Z) : list pystr :=
  flat_map (offered (candidate_text bits)) (firstn 50 (find_frames bits)).

(** One turn of the candidate loop, over any source [cand] of candidate
    texts: the state is [(best_text, best_len)]. *)
Definition offer (cand : nat -> option pystr) (best : option pystr * Z)
    (s : nat) : option pystr * Z :=
  match cand s with
  | None => best
  | Some text =>
      if snd best <? Z.of_nat (length text)
      then (Some text, Z.of_nat (length text))
      else best
  end.

(** Keeping the longest text seen so far: a later text replaces the current
    one only when strictly longer. *)
Definition keep_longer (best : option pystr) (t : pystr) : option pystr :=
  match best with
  | None => Some t
  | Some c => if (length c <? length t)%nat then Some t else Some c
  end.

Definition longest (texts : list pystr) : option pystr :=
  fold_left keep_longer texts None.

(** The final choice, in the words of the specification: no result when
    neither polarity has one, else the longer of the two bests, the
    non-flipped one on equal lengths. *)
Definition longer_of (t0 t1 : option pystr) : decode_error + pystr :=
  match t0, t1 with
  | None, None => inl NoValidFrame
  | Some a, None => inr a
  | None, Some b => inr b
  | Some a, Some b => if (length a <? length b)%nat then inr b else inr a
  end.



(** [best_len] is the length of [best_text], or [-1] before any text. *)
Definition best_state_ok (best : option pystr * Z) : Prop :=
  match fst best with
  | None => snd best = -1
  | Some t => snd best = Z.of_nat (length t)
  end.


(** The bit stream the encoder sends for a text given by its UTF-8 bytes. *)
Definition sent_bits (data : list Z) : list Z :=
  Encoder.bit_stream (Encoder.frame_payload data).


Definition is_int16 (v : Z) : Prop := -32768 <= v <= 32767.


(** One when the UTF-8 decoder is inside a multi-byte sequence. *)
Definition pending (st : utf8_state) : nat :=
  match st with
  | Idle => 0
  | Pending _ _ _ _ => 1
  end.

(** The waveform that renders one bit: [b1 if b else b0]. *)
Definition template {A : Type} (b0 b1 : A) (bit : Z) : A :=
  if bit =? 0 then b0 else b1.

(** The bits one transmission of an [n]-byte payload takes: preamble,
    [n] frames, postamble. *)
Definition frame_width (n : nat) : nat := (24 + 10 * n)%nat.



Definition is_bit (b : Z) : Prop := b = 0 \/ b = 1.



(** A classifier for the examples: it tells the two waveforms apart by
    their second sample, which is 3276 in [BIT1] alone. *)
Definition by_second_sample (blocks : list (list Q)) (b : list Q) : bool :=
  match b with
  | _ :: x :: _ => Qeq_bool x (inject_Z 3276)
  | _ => false
  end.

(** The file [main] writes, or an empty one when it raises. *)
Definition written (o : option Encoder.wav) : Encoder.wav :=
  match o with
  | Some w => w
  | None => {| Encoder.nchannels := 1; Encoder.sampwidth := 2;
               Encoder.framerate := 0; Encoder.frames := [] |}
  end.

(** ["hello world"] and ["hello\n"] *)
Definition hello_world : pystr :=
  [104; 101; 108; 108; 111; 32; 119; 111; 114; 108; 100].

Definition hello_nl : pystr := [104; 101; 108; 108; 111; 10].

Definition hello_world_nl : pystr := hello_world ++ [10].

(** The [n] integers from [lo] on, and all 16-bit values, for properties
    checked by enumeration. *)
Fixpoint z_range (lo : Z) (n : nat) : list Z :=
  match n with
  | O => []
  | S k => lo :: z_range (lo + 1) k
  end.

Definition all_words : list Z := z_range 0 (256 * 256).

(** One turn of the outer loop of [crc16_xmodem]: a data byte enters the
    register. *)
Definition crc_feed (poly crc b : Z) : Z :=
  Nat.iter 8 (Decoder.crc_shift poly) (Z.lxor crc (Z.shiftl b 8)).

(** The register before the final mask. *)
Definition crc_register (data : list Z) (poly init : Z) : Z :=
  fold_left (crc_feed poly) data init.

(** [cand[:-2]] and the big-endian value of [cand[-2:]]. *)
Definition body_of (cand : list Z) : list Z :=
  firstn (length cand - 2) cand.

Definition trailer_of (cand : list Z) : Z :=
  Z.lor (Z.shiftl (nth (length cand - 2) cand 0) 8)
        (nth (length cand - 1) cand 0).

(** One of the two checksums of the body equals the trailer. *)
Definition checksum_ok (cand : list Z) : bool :=
  (crc16_xmodem (body_of cand) =? trailer_of cand)
  || (crc16_ccitt_false (body_of cand) =? trailer_of cand).



(** The decoder's state machine run over [data] from the state [st]: the
    items it emits and the state it is left in ([utf8_scan] without the
    end-of-input check). *)
Fixpoint utf8_run (st : utf8_state) (data : list Z)
    : list (option Z) * utf8_state :=
  match data with
  | [] => ([], st)
  | b :: rest =>
      let (out, st') := utf8_step st b in
      let (out', st'') := utf8_run st' rest in
      (out ++ out', st'')
  end.

(** The bytes of a multi-byte character before its last one, from
    [h = c >> 6]. *)
Definition utf8_lead (h : Z) : list Z :=
  if h <? 0x20 then [Z.lor 0xC0 h]
  else if h <? 0x400 then
    [Z.lor 0xE0 (Z.shiftr h 6); Z.lor 0x80 (Z.land h 0x3F)]
  else [Z.lor 0xF0 (Z.shiftr h 12);
        Z.lor 0x80 (Z.land (Z.shiftr h 6) 0x3F);
        Z.lor 0x80 (Z.land h 0x3F)].

(** After the leading bytes of [h] the decoder waits for one last
    continuation byte, holding [h]; the surrogates are left out. *)
Definition lead_ok (h : Z) : bool :=
  ((0x360 <=? h) && (h <=? 0x37F))
  || match utf8_run Idle (utf8_lead h) with
     | ([], Pending 1 cp lo hi) => (cp =? h) && (lo =? 0x80) && (hi =? 0xBF)
     | _ => false
     end.

(** The last continuation byte of a character ending in the six bits
    [l]. *)
Definition tail_ok (l : Z) : bool :=
  let b := Z.lor 0x80 l in
  (0x80 <=? b) && (b <=? 0xBF) && (Z.land b 0x3F =? l).

(** ** Bytes and their bits *)

Lemma all_bytes_complete (b : Z) : is_byte b -> In b all_bytes.
Proof.
  intros [Hlo Hhi]. unfold all_bytes.
  apply in_map_iff. exists (Z.to_nat b). split; [lia|].
  apply in_seq. lia.
Qed.

Lemma byte_cases (P : Z -> bool) :
  forallb P all_bytes = true -> forall b, is_byte b -> P b = true.
Proof.
  intros H b Hb. rewrite forallb_forall in H.
  apply H, all_bytes_complete, Hb.
Qed.

Lemma msb_first_data_bits (b : Z) :
  is_byte b -> msb_first (Encoder.data_bits_of b) = b.
Proof.
  intros Hb.
  apply Z.eqb_eq.
  apply (byte_cases (fun b => msb_first (Encoder.data_bits_of b) =? b));
    [vm_compute; reflexivity | exact Hb].
Qed.

(** ** The UART frame parser *)

Lemma nth_past_prefix {A : Type} (pre l : list A) (k : nat) (d : A) :
  nth (length pre + k) (pre ++ l) d = nth k l d.
Proof.
  rewrite app_nth2 by lia. f_equal. lia.
Qed.

Lemma skipn_past_prefix {A : Type} (pre l : list A) (k : nat) :
  skipn (length pre + k) (pre ++ l) = skipn k l.
Proof.
  induction pre as [|x pre IH]; simpl; [reflexivity | exact IH].
Qed.

Lemma uart_loop_frame (bits : list Z) (budget : nat) (out : list Z) (i : nat) :
  frame_ok bits i = true ->
  uart_loop bits (S budget) out i
  = uart_loop bits budget (out ++ [frame_val bits i]) (i + 10).
Proof.
  unfold frame_ok. intros H.
  apply andb_prop in H as [H Hstop]. apply andb_prop in H as [Hlen Hstart].
  cbn [uart_loop]. rewrite Hlen, Hstart, Hstop. cbn [negb].
  apply Nat.leb_le in Hlen.
  replace (length bits <=? i + 9)%nat with false
    by (symmetry; apply Nat.leb_gt; lia).
  reflexivity.
Qed.

Lemma uart_loop_halt (bits : list Z) (budget : nat) (out : list Z) (i : nat) :
  frame_ok bits i = false ->
  uart_loop bits budget out i = (out, i).
Proof.
  unfold frame_ok. intros H. destruct budget as [|budget]; [reflexivity|].
  cbn [uart_loop].
  destruct (i + 10 <=? length bits)%nat; [|reflexivity].
  destruct (nth i bits 0 =? 0); [|reflexivity].
  cbn [negb andb] in *. rewrite H.
  destruct (length bits <=? i + 9)%nat; reflexivity.
Qed.

Lemma frame_bytes_S (bits : list Z) (start k : nat) :
  frame_bytes bits start (S k)
  = frame_val bits start :: frame_bytes bits (start + 10) k.
Proof.
  unfold frame_bytes. cbn [seq map]. f_equal.
  - f_equal. lia.
  - rewrite <- seq_shift, map_map. apply map_ext. intros j. f_equal. lia.
Qed.

Lemma frame_bytes_length (bits : list Z) (start k : nat) :
  length (frame_bytes bits start k) = k.
Proof.
  unfold frame_bytes. now rewrite length_map, length_seq.
Qed.

(** The loop consumes [k] well-formed frames in a row, whatever follows. *)
Lemma uart_loop_run (bits : list Z) (k : nat) :
  forall (budget : nat) (out : list Z) (i : nat),
    (forall j, (j < k)%nat -> frame_ok bits (i + 10 * j) = true) ->
    uart_loop bits (k + budget) out i
    = uart_loop bits budget (out ++ frame_bytes bits i k) (i + 10 * k).
Proof.
  induction k as [|k IH]; intros budget out i Hok.
  - cbn. rewrite app_nil_r. f_equal. lia.
  - cbn [Nat.add]. rewrite uart_loop_frame.
    + rewrite IH.
      * rewrite frame_bytes_S, <- app_assoc. cbn [app]. f_equal. lia.
      * intros j Hj. specialize (Hok (S j)).
        replace (i + 10 + 10 * j)%nat with (i + 10 * S j)%nat by lia.
        apply Hok. lia.
    + specialize (Hok 0%nat). rewrite Nat.mul_0_r, Nat.add_0_r in Hok.
      apply Hok. lia.
Qed.

(** What the loop returns, in full: the bytes of the [k] frames it accepted,
    [k] being the byte budget or the index of the first ill-formed frame. *)
Lemma uart_loop_spec (bits : list Z) :
  forall (budget : nat) (out : list Z) (i : nat),
  exists k,
    (k <= budget)%nat
    /\ uart_loop bits budget out i
       = (out ++ frame_bytes bits i k, (i + 10 * k)%nat)
    /\ (forall j, (j < k)%nat -> frame_ok bits (i + 10 * j) = true)
    /\ (k = budget \/ frame_ok bits (i + 10 * k) = false).
Proof.
  induction budget as [|budget IH]; intros out i.
  - exists 0%nat. cbn. rewrite app_nil_r, Nat.add_0_r.
    repeat split; auto. intros j Hj. lia.
  - destruct (frame_ok bits i) eqn:Hok.
    + destruct (IH (out ++ [frame_val bits i]) (i + 10)%nat)
        as (k & Hk & Heq & Hall & Hend).
      exists (S k). split; [lia|]. split; [|split].
      * rewrite uart_loop_frame, Heq by exact Hok.
        rewrite frame_bytes_S, <- app_assoc. cbn [app]. f_equal. lia.
      * intros [|j] Hj.
        -- now rewrite Nat.mul_0_r, Nat.add_0_r.
        -- replace (i + 10 * S j)%nat with (i + 10 + 10 * j)%nat by lia.
           apply Hall. lia.
      * destruct Hend as [-> | Hbad]; [left; reflexivity | right].
        replace (i + 10 * S k)%nat with (i + 10 + 10 * k)%nat by lia.
        exact Hbad.
    + exists 0%nat. split; [lia|]. rewrite uart_loop_halt by exact Hok.
      cbn. rewrite app_nil_r, !Nat.add_0_r.
      repeat split; auto. intros j Hj. lia.
Qed.

Lemma frame_at (pre rest : list Z) (b : Z) :
  is_byte b ->
  let bits := pre ++ (0 :: Encoder.data_bits_of b) ++ [1] ++ rest in
  frame_ok bits (length pre) = true /\ frame_val bits (length pre) = b.
Proof.
  intros Hb bits. subst bits. split.
  - unfold frame_ok.
    rewrite <- (Nat.add_0_r (length pre)) at 2.
    rewrite !nth_past_prefix. cbn [Encoder.data_bits_of map app nth].
    rewrite length_app. cbn [length]. rewrite Z.eqb_refl.
    rewrite andb_true_r, andb_true_r. apply Nat.leb_le. lia.
  - unfold frame_val, slice.
    replace (length pre + 9 - (length pre + 1))%nat with 8%nat by lia.
    rewrite skipn_past_prefix.
    cbn [Encoder.data_bits_of map app skipn firstn].
    apply (msb_first_data_bits b Hb).
Qed.

(** A framed payload is read back byte for byte, wherever it sits in the
    bit sequence. *)
Lemma uart_loop_payload (p : list Z) :
  forall (pre post : list Z) (budget : nat) (out : list Z),
    Forall is_byte p ->
    uart_loop (pre ++ Encoder.uart_bits p ++ post) (length p + budget) out
              (length pre)
    = uart_loop (pre ++ Encoder.uart_bits p ++ post) budget (out ++ p)
                (length pre + 10 * length p).
Proof.
  induction p as [|b p IH]; intros pre post budget out Hp.
  - cbn. rewrite app_nil_r, Nat.add_0_r. reflexivity.
  - inversion Hp as [|b' p' Hb Hp']; subst.
    cbn [Encoder.uart_bits length Nat.add].
    rewrite <- !app_assoc.
    pose proof (frame_at pre (Encoder.uart_bits p ++ post) b Hb) as Hfr.
    cbv zeta in Hfr. destruct Hfr as [Hok Hval].
    rewrite uart_loop_frame by exact Hok. rewrite Hval.
    set (fr := (0 :: Encoder.data_bits_of b) ++ [1]).
    assert (Hlen : length (pre ++ fr) = (length pre + 10)%nat)
      by (rewrite length_app; reflexivity).
    specialize (IH (pre ++ fr) post budget (out ++ [b]) Hp').
    rewrite Hlen in IH. subst fr.
    rewrite <- !app_assoc in IH. cbn [app] in IH |- *.
    rewrite IH. f_equal. lia.
Qed.



(** C3: the parser inverts the encoder's UART framing. For every byte
    sequence [p] no longer than the byte cap, parsing [uart_bits p] from
    index 0 returns [p] and the end position [10 * len(p)]. *)
Theorem uart_framing_roundtrip (p : list Z) (max_bytes : nat) :
  Forall is_byte p ->
  (length p <= max_bytes)%nat ->
  bits_to_bytes_uart (Encoder.uart_bits p) 0 max_bytes
  = (p, (10 * length p)%nat).
Proof.
  intros Hp Hlen. unfold bits_to_bytes_uart.
  replace max_bytes with (length p + (max_bytes - length p))%nat by lia.
  pose proof (uart_loop_payload p [] [] (max_bytes - length p) [] Hp) as H.
  cbn [app length Nat.add] in H. rewrite app_nil_r in H. rewrite H.
  apply uart_loop_halt.
  unfold frame_ok.
  replace (10 * length p + 10 <=? length (Encoder.uart_bits p))%nat with false;
    [reflexivity|].
  symmetry. apply Nat.leb_gt.
  clear. induction p as [|b p IH]; cbn [Encoder.uart_bits length]; [lia|].
  rewrite !length_app. cbn [Encoder.data_bits_of map length]. lia.
Qed.

Lemma uart_framing_roundtrip_witness :
  bits_to_bytes_uart (Encoder.uart_bits [104; 105; 10]) 0 10000
  = ([104; 105; 10], 30%nat).
Proof.
  apply (uart_framing_roundtrip [104; 105; 10] 10000).
  - repeat constructor; unfold is_byte; lia.
  - cbn [length]. apply Nat.leb_le. reflexivity.
Defined.

(** C10: for every bit sequence, start index and byte cap, the parser
    returns an end position equal to the start index plus ten times the
    number of bytes returned, never more bytes than the cap, and the bytes
    are those of consecutive whole frames, each well formed. *)
Theorem uart_parser_whole_frames (bits : list Z) (start_pos max_bytes : nat) :
  let r := bits_to_bytes_uart bits start_pos max_bytes in
  snd r = (start_pos + 10 * length (fst r))%nat
  /\ (length (fst r) <= max_bytes)%nat
  /\ fst r = frame_bytes bits start_pos (length (fst r))
  /\ (forall j, (j < length (fst r))%nat ->
        frame_ok bits (start_pos + 10 * j) = true).
Proof.
  unfold bits_to_bytes_uart.
  destruct (uart_loop_spec bits max_bytes [] start_pos)
    as (k & Hk & Heq & Hall & _).
  rewrite Heq. cbn [fst snd app]. rewrite frame_bytes_length.
  repeat split; auto.
Qed.

(** C6: the parser halts at the first violation. If the [k] frames that
    begin at the start index are well formed, [k] is within the byte cap,
    and at the next position fewer than 10 bits remain, or the start bit is
    not 0, or the stop bit is not 1, then the parser returns exactly those
    [k] whole bytes with the position of the violating frame, whatever
    bits follow. *)
Theorem uart_parser_halts_at_violation
    (bits : list Z) (start_pos max_bytes k : nat) :
  (k <= max_bytes)%nat ->
  (forall j, (j < k)%nat -> frame_ok bits (start_pos + 10 * j) = true) ->
  ((length bits < start_pos + 10 * k + 10)%nat
   \/ nth (start_pos + 10 * k) bits 0 <> 0
   \/ nth (start_pos + 10 * k + 9) bits 0 <> 1) ->
  bits_to_bytes_uart bits start_pos max_bytes
  = (frame_bytes bits start_pos k, (start_pos + 10 * k)%nat)
  /\ length (fst (bits_to_bytes_uart bits start_pos max_bytes)) = k.
Proof.
  intros Hk Hall Hbad.
  assert (Heq : bits_to_bytes_uart bits start_pos max_bytes
                = (frame_bytes bits start_pos k, (start_pos + 10 * k)%nat)).
  { unfold bits_to_bytes_uart.
    replace max_bytes with (k + (max_bytes - k))%nat by lia.
    rewrite uart_loop_run by exact Hall. cbn [app].
    apply uart_loop_halt. unfold frame_ok.
    destruct Hbad as [Hshort | [Hstart | Hstop]].
    - replace (start_pos + 10 * k + 10 <=? length bits)%nat with false;
        [reflexivity | symmetry; apply Nat.leb_gt; lia].
    - apply Z.eqb_neq in Hstart. rewrite Hstart.
      now rewrite andb_false_r.
    - apply Z.eqb_neq in Hstop. rewrite Hstop.
      now rewrite andb_false_r. }
  split; [exact Heq|]. rewrite Heq. apply frame_bytes_length.
Qed.

Lemma uart_parser_halts_at_violation_witness :
  bits_to_bytes_uart [0; 0;1;0;0;0;0;0;1; 1;  0; 1;1;1;1;1;1;1;1; 0;  0; 0]
                     0 10000
  = ([65], 10%nat)
  /\ length (fst (bits_to_bytes_uart
        [0; 0;1;0;0;0;0;0;1; 1;  0; 1;1;1;1;1;1;1;1; 0;  0; 0] 0 10000))
     = 1%nat.
Proof.
  apply (uart_parser_halts_at_violation
           [0; 0;1;0;0;0;0;0;1; 1;  0; 1;1;1;1;1;1;1;1; 0;  0; 0]
           0 10000 1).
  - apply Nat.leb_le. reflexivity.
  - intros j Hj. assert (j = 0%nat) by lia. subst j. reflexivity.
  - right. right. cbn. lia.
Defined.

(** ** Checksums *)

Lemma land_ffff_range (x : Z) : 0 <= Z.land x 0xFFFF < 65536.
Proof.
  change 0xFFFF with (Z.ones 16). rewrite Z.land_ones by lia.
  change 65536 with (2 ^ 16). apply Z.mod_pos_bound. lia.
Qed.

Lemma crc16_gen_range (data : list Z) (poly init : Z) :
  0 <= crc16_gen data poly init < 65536.
Proof. apply land_ffff_range. Qed.

Lemma testbit_255 (n : Z) : 0 <= n -> Z.testbit 255 n = (n <? 8).
Proof.
  intros Hn. change 255 with (Z.ones 8).
  rewrite Z.testbit_ones by lia.
  destruct (0 <=? n) eqn:E; [reflexivity | apply Z.leb_gt in E; lia].
Qed.

(** The two trailer bytes, read most significant byte first, give the
    checksum back. *)
Lemma trailer_value (crc : Z) :
  0 <= crc < 65536 ->
  Z.lor (Z.shiftl (Z.land (Z.shiftr crc 8) 0xFF) 8) (Z.land crc 0xFF) = crc.
Proof.
  intros Hc. apply Z.bits_inj'. intros n Hn.
  rewrite Z.lor_spec, Z.land_spec, testbit_255 by exact Hn.
  destruct (n <? 8) eqn:E.
  - apply Z.ltb_lt in E. rewrite Z.shiftl_spec_low by lia.
    now rewrite andb_true_r.
  - apply Z.ltb_ge in E. rewrite Z.shiftl_spec by lia.
    rewrite Z.land_spec, Z.shiftr_spec, testbit_255 by lia.
    replace (n - 8 + 8) with n by lia.
    rewrite andb_false_r, orb_false_r.
    destruct (n - 8 <? 8) eqn:E'; [now rewrite andb_true_r|].
    apply Z.ltb_ge in E'. rewrite andb_false_r.
    symmetry. apply (Z.bits_above_log2 crc n); [lia|].
    destruct (Z.eq_dec crc 0) as [-> | Hnz]; [cbn; lia|].
    apply Z.log2_lt_pow2; [lia|].
    apply Z.lt_le_trans with (2 ^ 16); [lia|].
    apply Z.pow_le_mono_r; lia.
Qed.

Lemma split_trailer (body trailer : list Z) :
  length trailer = 2%nat ->
  firstn (length (body ++ trailer) - 2) (body ++ trailer) = body
  /\ skipn (length (body ++ trailer) - 2) (body ++ trailer) = trailer.
Proof.
  intros Ht. rewrite length_app, Ht.
  replace (length body + 2 - 2)%nat with (length body + 0)%nat by lia.
  split.
  - rewrite firstn_app_2. cbn. apply app_nil_r.
  - rewrite skipn_past_prefix. reflexivity.
Qed.

(** The resolver on a body followed by the trailer of [crc], when one of
    its two checksum functions computes [crc] on the body. *)
Lemma resolver_accepts (body : list Z) (crc : Z) :
  body <> [] ->
  0 <= crc < 65536 ->
  crc16_xmodem body = crc \/ crc16_ccitt_false body = crc ->
  try_bit_order_and_crc (body ++ Encoder.crc_trailer crc) = Some body.
Proof.
  intros Hne Hc Hcrc. unfold try_bit_order_and_crc.
  assert (Hlen : (length (body ++ Encoder.crc_trailer crc) <? 3)%nat = false).
  { apply Nat.ltb_ge. rewrite length_app. cbn [Encoder.crc_trailer length].
    destruct body; [congruence | cbn [length]; lia]. }
  rewrite Hlen. cbn [first_valid]. rewrite Hlen.
  destruct (split_trailer body (Encoder.crc_trailer crc) eq_refl) as [-> ->].
  cbn [Encoder.crc_trailer nth]. rewrite trailer_value by exact Hc.
  cbn [first_crc_match].
  destruct (crc16_xmodem body =? crc) eqn:E; [reflexivity|].
  destruct Hcrc as [H | H].
  - apply Z.eqb_neq in E. congruence.
  - rewrite H, Z.eqb_refl. reflexivity.
Qed.

(** C2: for every non-empty byte sequence [b], [b] followed by the two
    big-endian bytes of its CRC-16 (polynomial 0x1021), computed with
    initial value 0x0000 or with initial value 0xFFFF, is validated by
    [try_bit_order_and_crc], which returns exactly [b]. *)
Theorem resolver_validates_both_crc_variants (b : list Z) :
  b <> [] ->
  try_bit_order_and_crc (b ++ Encoder.crc_trailer (crc16_gen b 0x1021 0x0000))
  = Some b
  /\ try_bit_order_and_crc
       (b ++ Encoder.crc_trailer (crc16_gen b 0x1021 0xFFFF))
     = Some b.
Proof.
  intros Hne. split.
  - apply resolver_accepts; [exact Hne | apply crc16_gen_range |].
    left. reflexivity.
  - apply resolver_accepts; [exact Hne | apply crc16_gen_range |].
    right. reflexivity.
Qed.

Lemma resolver_validates_both_crc_variants_witness :
  try_bit_order_and_crc
    ([49; 50; 51; 52; 53; 54; 55; 56; 57]
       ++ Encoder.crc_trailer
            (crc16_gen [49; 50; 51; 52; 53; 54; 55; 56; 57] 0x1021 0x0000))
  = Some [49; 50; 51; 52; 53; 54; 55; 56; 57]
  /\ try_bit_order_and_crc
       ([49; 50; 51; 52; 53; 54; 55; 56; 57]
          ++ Encoder.crc_trailer
               (crc16_gen [49; 50; 51; 52; 53; 54; 55; 56; 57] 0x1021 0xFFFF))
     = Some [49; 50; 51; 52; 53; 54; 55; 56; 57].
Proof.
  apply (resolver_validates_both_crc_variants
           [49; 50; 51; 52; 53; 54; 55; 56; 57]).
  discriminate.
Defined.

(** The standard check values of the two parameterisations, on the nine
    bytes ["123456789"]. *)
Example crc16_check_values :
  crc16_xmodem [49; 50; 51; 52; 53; 54; 55; 56; 57] = 0x31C3
  /\ crc16_ccitt_false [49; 50; 51; 52; 53; 54; 55; 56; 57] = 0x29B1.
Proof. split; vm_compute; reflexivity. Qed.

Lemma first_crc_match_some (fns : list (list Z -> Z)) (body b : list Z)
    (want : Z) :
  first_crc_match fns body want = Some b -> b = body.
Proof.
  induction fns as [|f fns IH]; cbn [first_crc_match]; [discriminate|].
  destruct (f body =? want); [intros [= <-]; reflexivity | exact IH].
Qed.

Lemma first_valid_length (cands : list (list Z)) (body : list Z) (n : nat) :
  Forall (fun c => length c = n) cands ->
  first_valid cands = Some body ->
  (3 <= n)%nat /\ (length body + 2 = n)%nat.
Proof.
  induction cands as [|c cands IH]; intros Hall H; [discriminate|].
  inversion Hall as [|c' cands' Hc Hall']; subst.
  cbn [first_valid] in H.
  destruct (length c <? 3)%nat eqn:E; [now apply IH|].
  apply Nat.ltb_ge in E.
  destruct (first_crc_match _ _ _) as [b|] eqn:Hm; [|now apply IH].
  apply first_crc_match_some in Hm. injection H as <-. subst b.
  rewrite firstn_length_le by lia. lia.
Qed.

(** A validated body is the payload without its two trailer bytes. *)
Lemma resolver_body_length (payload body : list Z) :
  try_bit_order_and_crc payload = Some body ->
  (length body + 2 = length payload)%nat.
Proof.
  unfold try_bit_order_and_crc.
  destruct (length payload <? 3)%nat; [discriminate|].
  intros H. apply (first_valid_length _ _ (length payload)) in H; [apply H|].
  repeat constructor. apply length_map.
Qed.

(** ** The frame locator *)

Lemma trailing_ones_ge (k : nat) :
  forall l : list Z,
    (k <= trailing_ones l)%nat
    <-> (k <= length l)%nat /\ forall j, (j < k)%nat -> nth j l 0 = 1.
Proof.
  induction k as [|k IH]; intros l.
  - split; [intros _; split; [lia | intros j Hj; lia] | intros _; lia].
  - destruct l as [|b l]; cbn [trailing_ones length].
    + split; [lia | intros [H _]; lia].
    + destruct (b =? 1) eqn:E.
      * apply Z.eqb_eq in E. subst b. rewrite <- Nat.succ_le_mono, IH.
        split; intros [Hlen Hall]; (split; [lia|]).
        -- intros [|j] Hj; [reflexivity | cbn [nth]; apply Hall; lia].
        -- intros j Hj. apply (Hall (S j)). lia.
      * apply Z.eqb_neq in E. split; [lia|].
        intros [_ Hall]. specialize (Hall 0%nat). cbn [nth] in Hall.
        exfalso. apply E, Hall. lia.
Qed.

Lemma run_endb_spec (bits : list Z) (s : nat) :
  (s < length bits)%nat ->
  run_endb bits s = true <-> run_end bits s.
Proof.
  intros Hs. unfold run_endb, run_end, run_before.
  rewrite andb_true_iff, negb_true_iff, Z.eqb_neq, Nat.leb_le.
  rewrite trailing_ones_ge, length_rev, firstn_length_le by lia.
  assert (Hnth : forall j, (j < s)%nat ->
            nth j (rev (firstn s bits)) 0 = nth (s - S j) bits 0).
  { intros j Hj. rewrite rev_nth by (rewrite firstn_length_le; lia).
    rewrite firstn_length_le by lia. rewrite nth_firstn.
    replace (s - S j <? s)%nat with true; [reflexivity|].
    symmetry. apply Nat.ltb_lt. lia. }
  split.
  - intros (Hb & Hlen & Hall). repeat split; auto.
    intros j Hj. specialize (Hall (s - S j)%nat).
    rewrite Hnth in Hall by lia.
    replace (s - S (s - S j))%nat with j in Hall by lia.
    apply Hall. lia.
  - intros (_ & Hb & Hlen & Hall). repeat split; auto.
    intros j Hj. rewrite Hnth by lia. apply Hall. lia.
Qed.

Lemma run_ends_spec (bits : list Z) (s : nat) :
  In s (run_ends bits) <-> run_end bits s.
Proof.
  unfold run_ends. rewrite filter_In, in_seq. split.
  - intros [Hs Hb]. apply run_endb_spec; [lia | exact Hb].
  - intros H. assert (Hs : (s < length bits)%nat) by apply H.
    split; [lia | apply run_endb_spec; assumption].
Qed.

(** The first loop of [find_frames], started anywhere in the sequence:
    [pre] is what has been scanned and [run] the run of 1 bits at its end. *)
Lemma scan_runs_spec (rest : list Z) :
  forall (pre : list Z) (starts : list nat),
    scan_runs rest (length pre) (trailing_ones (rev pre)) starts
    = starts ++ filter (run_endb (pre ++ rest))
                       (seq (length pre) (length rest)).
Proof.
  induction rest as [|b rest IH]; intros pre starts.
  - cbn. now rewrite app_nil_r.
  - cbn [scan_runs length seq filter].
    assert (Hhere : run_endb (pre ++ b :: rest) (length pre)
                    = negb (b =? 1) && (8 <=? trailing_ones (rev pre))%nat).
    { unfold run_endb, run_before.
      rewrite <- (Nat.add_0_r (length pre)) at 1.
      rewrite nth_past_prefix. cbn [nth].
      rewrite <- (Nat.add_0_r (length pre)).
      rewrite firstn_app_2. cbn [firstn]. now rewrite app_nil_r. }
    rewrite Hhere.
    assert (Hpre : (pre ++ [b]) ++ rest = pre ++ b :: rest)
      by (rewrite <- app_assoc; reflexivity).
    assert (Hlen : length (pre ++ [b]) = S (length pre))
      by (rewrite length_app; cbn; lia).
    destruct (b =? 1) eqn:E; cbn [negb andb].
    + specialize (IH (pre ++ [b]) starts).
      rewrite Hlen, Hpre, rev_app_distr in IH. cbn [rev app trailing_ones] in IH.
      rewrite E in IH. exact IH.
    + specialize (IH (pre ++ [b])
                     (if (8 <=? trailing_ones (rev pre))%nat
                      then starts ++ [length pre] else starts)).
      rewrite Hlen, Hpre, rev_app_distr in IH. cbn [rev app trailing_ones] in IH.
      rewrite E in IH. rewrite IH.
      destruct (8 <=? trailing_ones (rev pre))%nat;
        [rewrite <- app_assoc|]; reflexivity.
Qed.

Lemma scan_runs_run_ends (bits : list Z) :
  scan_runs bits 0 0 [] = run_ends bits.
Proof. exact (scan_runs_spec bits [] []). Qed.

Lemma filter_seq_above (f : nat -> bool) (a n x : nat) :
  In x (filter f (seq a n)) -> (a <= x)%nat.
Proof. rewrite filter_In, in_seq. lia. Qed.

Lemma filter_seq_sorted (f : nat -> bool) (n : nat) :
  forall a, StronglySorted lt (filter f (seq a n)).
Proof.
  induction n as [|n IH]; intros a; cbn [seq filter]; [constructor|].
  destruct (f a); [|apply IH].
  constructor; [apply IH|].
  apply Forall_forall. intros x Hx. apply filter_seq_above in Hx. lia.
Qed.

Lemma dedup_loop_acc (starts : list nat) :
  forall (last : Z) (dedup : list nat),
    dedup_loop starts last dedup = dedup ++ dedup_loop starts last [].
Proof.
  induction starts as [|s starts IH]; intros last dedup; cbn [dedup_loop].
  - now rewrite app_nil_r.
  - destruct (50 <? Z.of_nat s - last).
    + rewrite (IH _ (dedup ++ [s])), (IH _ ([] ++ [s])), <- app_assoc.
      reflexivity.
    + apply IH.
Qed.

Lemma dedup_loop_cons (s : nat) (starts : list nat) (last : Z) :
  dedup_loop (s :: starts) last []
  = if 50 <? Z.of_nat s - last
    then s :: dedup_loop starts (Z.of_nat s) []
    else dedup_loop starts last [].
Proof.
  cbn [dedup_loop]. destruct (50 <? Z.of_nat s - last); [|reflexivity].
  now rewrite dedup_loop_acc.
Qed.

(** A retained start is a candidate more than 50 past [last]. *)
Lemma dedup_loop_in (starts : list nat) :
  forall (last : Z) (x : nat),
    StronglySorted lt starts ->
    In x (dedup_loop starts last []) ->
    In x starts /\ 50 < Z.of_nat x - last.
Proof.
  induction starts as [|s starts IH]; intros last x Hs Hx.
  - destruct Hx.
  - apply StronglySorted_inv in Hs as [Hs Hall].
    rewrite dedup_loop_cons in Hx.
    destruct (50 <? Z.of_nat s - last) eqn:E.
    + destruct Hx as [-> | Hx].
      * split; [now left | now apply Z.ltb_lt].
      * destruct (IH _ _ Hs Hx) as [Hin Hgap]. split; [now right|].
        apply Z.ltb_lt in E. rewrite Forall_forall in Hall.
        specialize (Hall x Hin). lia.
    + destruct (IH _ _ Hs Hx) as [Hin Hgap]. split; [now right | exact Hgap].
Qed.

Lemma dedup_loop_far_apart (starts : list nat) :
  forall last : Z,
    StronglySorted lt starts ->
    StronglySorted far_apart (dedup_loop starts last []).
Proof.
  induction starts as [|s starts IH]; intros last Hs; [constructor|].
  rewrite dedup_loop_cons.
  pose proof (StronglySorted_inv Hs) as [Hs' Hall].
  destruct (50 <? Z.of_nat s - last); [|now apply IH].
  constructor; [now apply IH|].
  apply Forall_forall. intros x Hx.
  apply dedup_loop_in in Hx as [_ Hgap]; [|exact Hs'].
  unfold far_apart. lia.
Qed.

(** A dropped start lies within 50 positions after [last] or after a
    retained start. *)
Lemma dedup_loop_covers (starts : list nat) :
  forall (last : Z) (s : nat),
    StronglySorted lt starts ->
    In s starts ->
    Z.of_nat s - last <= 50
    \/ exists r, In r (dedup_loop starts last [])
                 /\ (r <= s <= r + 50)%nat.
Proof.
  induction starts as [|x starts IH]; intros last s Hs Hin; [destruct Hin|].
  apply StronglySorted_inv in Hs as [Hs Hall].
  rewrite dedup_loop_cons.
  destruct (50 <? Z.of_nat x - last) eqn:E.
  - right. destruct Hin as [-> | Hin].
    + exists s. split; [now left | lia].
    + destruct (IH (Z.of_nat x) s Hs Hin) as [Hnear | (r & Hr & Hrs)].
      * exists x. split; [now left|].
        rewrite Forall_forall in Hall. specialize (Hall s Hin). lia.
      * exists r. split; [now right | exact Hrs].
  - apply Z.ltb_ge in E. destruct Hin as [-> | Hin]; [now left|].
    apply (IH last s Hs Hin).
Qed.

Lemma find_frames_dedup (bits : list Z) :
  find_frames bits = dedup_loop (run_ends bits) (- 10 ^ 9) [].
Proof. unfold find_frames. now rewrite scan_runs_run_ends. Qed.

Lemma run_ends_sorted (bits : list Z) : StronglySorted lt (run_ends bits).
Proof. apply filter_seq_sorted. Qed.

Lemma find_frames_run_end (bits : list Z) (s : nat) :
  In s (find_frames bits) -> run_end bits s.
Proof.
  rewrite find_frames_dedup. intros Hs. apply run_ends_spec.
  now apply (dedup_loop_in _ _ _ (run_ends_sorted bits) Hs).
Qed.

(** C7, as the code has it: the start candidates are exactly the positions
    of a bit other than 1 (a 0 bit, on a 0/1 sequence) that ends a run of
    at least 8 consecutive 1 bits, taken in position order; the locator
    returns a selection of them in which any two are more than 50 positions
    apart, and every candidate it drops lies at most 50 positions after one
    it returns. *)
Theorem find_frames_spec (bits : list Z) :
  (forall s, In s (run_ends bits) <-> run_end bits s)
  /\ StronglySorted lt (run_ends bits)
  /\ (forall s, In s (find_frames bits) -> run_end bits s)
  /\ StronglySorted far_apart (find_frames bits)
  /\ (forall s, run_end bits s ->
        exists r, In r (find_frames bits) /\ (r <= s <= r + 50)%nat).
Proof.
  rewrite find_frames_dedup.
  pose proof (run_ends_sorted bits) as Hsorted.
  split; [apply run_ends_spec|]. split; [exact Hsorted|].
  split; [|split].
  - intros s Hs. apply run_ends_spec.
    now apply (dedup_loop_in _ _ _ Hsorted Hs).
  - now apply dedup_loop_far_apart.
  - intros s Hs. apply run_ends_spec in Hs.
    destruct (dedup_loop_covers _ (- 10 ^ 9) s Hsorted Hs) as [Hnear | H];
      [|exact H].
    assert (0 < 10 ^ 9) by (apply Z.pow_pos_nonneg; lia). lia.
Qed.

(** C7 as worded fails: two candidates exactly 50 positions apart are not
    both kept. Positions 8 and 58 each end a run of eight 1 bits; only the
    first is returned. *)
Lemma find_frames_drops_at_distance_50 :
  let bits := ones 8 ++ [0] ++ repeat 0 41 ++ ones 8 ++ [0] in
  run_endb bits 8 = true
  /\ run_endb bits 58 = true
  /\ find_frames bits = [8%nat].
Proof. vm_compute. repeat split. Qed.

(** ** The encoder's checksum, samples and blocks *)

Lemma crc_byte_range (poly crc b : Z) :
  0 <= Nat.iter 8 (Decoder.crc_shift poly) (Z.lxor crc (Z.shiftl b 8)) < 65536.
Proof.
  change (Nat.iter 8 (Decoder.crc_shift poly) (Z.lxor crc (Z.shiftl b 8)))
    with (Decoder.crc_shift poly
            (Nat.iter 7 (Decoder.crc_shift poly) (Z.lxor crc (Z.shiftl b 8)))).
  unfold Decoder.crc_shift.
  destruct (Z.land _ 0x8000 =? 0); apply land_ffff_range.
Qed.

Lemma crc_fold_range (poly : Z) (data : list Z) :
  forall init,
    0 <= init < 65536 ->
    0 <= fold_left (fun crc b => Nat.iter 8 (Decoder.crc_shift poly)
                                   (Z.lxor crc (Z.shiftl b 8)))
                   data init < 65536.
Proof.
  induction data as [|b data IH]; intros init Hinit; [exact Hinit|].
  cbn [fold_left]. apply IH, crc_byte_range.
Qed.

(** The encoder's CRC is the decoder's first checksum variant. *)
Lemma encoder_crc (data : list Z) :
  Encoder.crc16_xmodem data = Decoder.crc16_xmodem data
  /\ 0 <= Encoder.crc16_xmodem data < 65536.
Proof.
  assert (Hr : 0 <= Encoder.crc16_xmodem data < 65536)
    by (apply (crc_fold_range 0x1021 data 0); lia).
  split; [|exact Hr].
  change (Decoder.crc16_xmodem data)
    with (Z.land (Encoder.crc16_xmodem data) 0xFFFF).
  change 0xFFFF with (Z.ones 16). rewrite Z.land_ones by lia.
  symmetry. apply Z.mod_small. exact Hr.
Qed.

(** Scaling rounds halves to the even neighbour (2317 * 0.5 = 1158.5) and
    the amplitude check refuses 0, values above 1 and NaN. *)
Example scale_examples :
  Encoder.scale 0.5%float [2317; 3276; -2317] = Some [1158; 1638; -1158]
  /\ Encoder.scale 0x1.3333333333333p-2%float [2317; -3276]
     = Some [695; -983]
  /\ Encoder.bits_to_pcm [1] 0%float = None
  /\ Encoder.bits_to_pcm [1] 1.5%float = None
  /\ Encoder.bits_to_pcm [1] nan = None.
Proof. repeat split; vm_compute; reflexivity. Qed.

Lemma scale_sample_range (amp : float) (v sv : Z) :
  Encoder.scale_sample amp v = Some sv -> is_int16 sv.
Proof.
  unfold Encoder.scale_sample, is_int16.
  destruct (Encoder.py_round _) as [r|]; [|discriminate].
  intros [= <-].
  destruct (32767 <? r) eqn:E1.
  - cbn. lia.
  - apply Z.ltb_ge in E1. destruct (r <? -32768) eqn:E2.
    + lia.
    + apply Z.ltb_ge in E2. lia.
Qed.

Lemma scale_spec (amp : float) (arr : list Z) :
  forall out,
    Encoder.scale amp arr = Some out ->
    length out = length arr /\ Forall is_int16 out.
Proof.
  induction arr as [|v arr IH]; intros out; cbn [Encoder.scale].
  - intros [= <-]. split; [reflexivity | constructor].
  - destruct (Encoder.scale_sample amp v) as [sv|] eqn:Hsv; [|discriminate].
    destruct (Encoder.scale amp arr) as [out'|]; [|discriminate].
    intros [= <-]. destruct (IH out' eq_refl) as [Hlen Hall].
    split; [cbn [length]; now rewrite Hlen|].
    constructor; [now apply (scale_sample_range amp v) | exact Hall].
Qed.

Lemma le16_roundtrip (s : Z) (rest : list Z) :
  is_int16 s ->
  frombuffer_i2 (Encoder.to_bytes_le16 s ++ rest) = s :: frombuffer_i2 rest.
Proof.
  unfold is_int16, Encoder.to_bytes_le16. intros Hs.
  cbn [app frombuffer_i2]. f_equal.
  set (u := s mod 65536).
  assert (Hu : u mod 256 + 256 * (u / 256) = u)
    by (pose proof (Z.div_mod u 256); lia).
  rewrite Hu. subst u.
  destruct (Z.ltb_spec (s mod 65536) 32768) as [H | H];
    Z.to_euclidean_division_equations; lia.
Qed.

Lemma frombuffer_samples (samples rest : list Z) :
  Forall is_int16 samples ->
  frombuffer_i2 (flat_map Encoder.to_bytes_le16 samples ++ rest)
  = samples ++ frombuffer_i2 rest.
Proof.
  induction 1 as [|s samples Hs _ IH]; [reflexivity|].
  cbn [flat_map]. rewrite <- app_assoc, le16_roundtrip by exact Hs.
  cbn [app]. now rewrite IH.
Qed.

(** Reading the rendered bytes back gives the templates, bit after bit. *)
Lemma frombuffer_render (b0 b1 bits : list Z) :
  Forall is_int16 b0 ->
  Forall is_int16 b1 ->
  frombuffer_i2 (Encoder.render b0 b1 bits) = flat_map (template b0 b1) bits.
Proof.
  intros H0 H1. induction bits as [|b bits IH]; [reflexivity|].
  cbn [Encoder.render flat_map]. rewrite frombuffer_samples.
  - rewrite IH. reflexivity.
  - unfold template. destruct (b =? 0); assumption.
Qed.

Lemma template_samples_length (b0 b1 bits : list Z) :
  length b0 = BIT_SAMPLES ->
  length b1 = BIT_SAMPLES ->
  length (flat_map (template b0 b1) bits) = (length bits * BIT_SAMPLES)%nat.
Proof.
  intros H0 H1. induction bits as [|b bits IH]; [reflexivity|].
  cbn [flat_map length]. rewrite length_app, IH.
  unfold template. destruct (b =? 0); lia.
Qed.





(** ** Text: UTF-8 decoding and clean-up *)

Lemma utf8_start_length (b : Z) :
  (length (fst (utf8_start b)) + pending (snd (utf8_start b)) <= 1)%nat.
Proof.
  unfold utf8_start.
  repeat match goal with
         | |- context [if ?c then _ else _] => destruct c
         end; cbn; lia.
Qed.

Lemma utf8_step_length (st : utf8_state) (b : Z) :
  (length (fst (utf8_step st b)) + pending (snd (utf8_step st b))
   <= 1 + pending st)%nat.
Proof.
  destruct st as [|needed cp lo hi]; cbn [utf8_step pending].
  - pose proof (utf8_start_length b). lia.
  - destruct ((lo <=? b) && (b <=? hi)).
    + destruct needed as [|[|n]]; cbn; lia.
    + pose proof (utf8_start_length b) as H.
      destruct (utf8_start b) as [out st']. cbn [fst snd length] in *. lia.
Qed.

(** The decoder never yields more items than it reads bytes. *)
Lemma utf8_scan_length (data : list Z) :
  forall st, (length (utf8_scan st data) <= length data + pending st)%nat.
Proof.
  induction data as [|b data IH]; intros st; cbn [utf8_scan length].
  - destruct st; cbn; lia.
  - pose proof (utf8_step_length st b) as H.
    destruct (utf8_step st b) as [out st']. cbn [fst snd] in H.
    rewrite length_app. specialize (IH st'). lia.
Qed.

Lemma all_decoded_length (items : list (option Z)) (t : pystr) :
  all_decoded items = Some t -> length t = length items.
Proof.
  revert t. induction items as [|[c|] items IH]; intros t; cbn [all_decoded].
  - intros [= <-]. reflexivity.
  - destruct (all_decoded items) as [t'|]; [|discriminate].
    intros [= <-]. cbn [length]. f_equal. now apply IH.
  - discriminate.
Qed.

Lemma replace_crlf_length (text : pystr) :
  (length (replace_crlf text) <= length text)%nat.
Proof.
  assert (H : forall k t, (length t <= k)%nat ->
                (length (replace_crlf t) <= length t)%nat).
  { induction k as [|k IH]; intros t Hk.
    - destruct t; [cbn; lia | cbn [length] in Hk; lia].
    - destruct t as [|c t]; [cbn; lia|].
      destruct t as [|d t]; [cbn; lia|].
      change (replace_crlf (c :: d :: t))
        with (if (c =? 13) && (d =? 10) then 10 :: replace_crlf t
              else c :: replace_crlf (d :: t)).
      cbn [length] in Hk.
      destruct ((c =? 13) && (d =? 10)); cbn [length].
      + assert (Ht : (length t <= k)%nat) by lia.
        specialize (IH t Ht). lia.
      + assert (Ht : (length (d :: t) <= k)%nat) by (cbn [length]; lia).
        specialize (IH (d :: t) Ht). cbn [length] in IH. lia. }
  apply (H (length text)). lia.
Qed.

Lemma lstrip_nul_length (text : pystr) :
  (length (lstrip_nul text) <= length text)%nat.
Proof.
  induction text as [|c text IH]; cbn [lstrip_nul length]; [lia|].
  destruct (c =? 0); cbn [length]; lia.
Qed.

Lemma strip_nul_length (text : pystr) :
  (length (strip_nul text) <= length text)%nat.
Proof.
  unfold strip_nul. rewrite length_rev.
  pose proof (lstrip_nul_length (rev (lstrip_nul text))) as H.
  rewrite length_rev in H. pose proof (lstrip_nul_length text). lia.
Qed.

(** A decoded text has at most one character per byte of the body. *)
Lemma body_text_length (body : list Z) :
  (length (body_text body) <= length body)%nat.
Proof.
  unfold body_text.
  pose proof (utf8_scan_length body Idle) as Hscan. cbn [pending] in Hscan.
  set (text := match decode_utf8_strict body with
               | Some t => t
               | None => decode_utf8_replace body
               end).
  assert (Htext : (length text <= length body)%nat).
  { subst text. unfold decode_utf8_strict, decode_utf8_replace.
    destruct (all_decoded (utf8_scan Idle body)) as [t|] eqn:E.
    - apply all_decoded_length in E. lia.
    - rewrite length_map. lia. }
  pose proof (strip_nul_length (replace_crlf text)).
  pose proof (replace_crlf_length text). lia.
Qed.


Lemma all_decoded_some (text : pystr) : all_decoded (map Some text) = Some text.
Proof.
  induction text as [|c text IH]; cbn [map all_decoded]; [reflexivity|].
  now rewrite IH.
Qed.




(** The decoder on ill-formed input, as CPython answers: a truncated
    sequence is one U+FFFD, an overlong one is one U+FFFD per byte, a
    surrogate is refused; and the clean-up of a decoded body. *)
Example utf8_decode_examples :
  decode_utf8_replace [0xE2; 0x82] = [0xFFFD]
  /\ decode_utf8_replace [0xC0; 0x80] = [0xFFFD; 0xFFFD]
  /\ decode_utf8_replace [0xF0; 0x9F; 0x98; 0x41] = [0xFFFD; 0x41]
  /\ decode_utf8_strict [0xE2; 0x82; 0xAC] = Some [0x20AC]
  /\ decode_utf8_strict [0xED; 0xA0; 0x80] = None
  /\ body_text [0; 97; 13; 10; 98; 0; 0] = [97; 10; 98].
Proof. repeat split; vm_compute; reflexivity. Qed.


(** ** The decode orchestrator *)

(** From here on the stages are used through their lemmas only. *)
#[local] Opaque bits_to_bytes_uart try_bit_order_and_crc find_frames body_text.

Lemma try_start_candidate (bits : list Z) (best : option pystr * Z) (s : nat) :
  try_start bits best s = offer (candidate_text bits) best s.
Proof.
  unfold try_start, offer, candidate_text.
  destruct (bits_to_bytes_uart bits s 10000) as [payload endpos].
  cbn [fst]. destruct (length payload <? 10)%nat; [reflexivity|].
  destruct (try_bit_order_and_crc payload); reflexivity.
Qed.

Lemma offer_ok (cand : nat -> option pystr) (best : option pystr * Z)
    (s : nat) :
  best_state_ok best ->
  best_state_ok (offer cand best s)
  /\ fst (offer cand best s)
     = fold_left keep_longer (offered cand s) (fst best).
Proof.
  unfold offer, offered, best_state_ok. intros Hbest.
  destruct (cand s) as [t|]; [|split; [exact Hbest | reflexivity]].
  destruct best as [[c|] n]; cbn [fst snd] in *; subst n.
  - destruct (Z.of_nat (length c) <? Z.of_nat (length t)) eqn:E;
      cbn [fst snd fold_left keep_longer].
    + apply Z.ltb_lt in E.
      replace (length c <? length t)%nat with true
        by (symmetry; apply Nat.ltb_lt; lia).
      split; reflexivity.
    + apply Z.ltb_ge in E.
      replace (length c <? length t)%nat with false
        by (symmetry; apply Nat.ltb_ge; lia).
      split; reflexivity.
  - replace (-1 <? Z.of_nat (length t)) with true
      by (symmetry; apply Z.ltb_lt; lia).
    split; reflexivity.
Qed.

Lemma offer_fold (cand : nat -> option pystr) (starts : list nat) :
  forall best : option pystr * Z,
    best_state_ok best ->
    fst (fold_left (offer cand) starts best)
    = fold_left keep_longer (flat_map (offered cand) starts) (fst best).
Proof.
  induction starts as [|s starts IH]; intros best Hbest; [reflexivity|].
  destruct (offer_ok cand best s Hbest) as [Hok Hfst].
  change (fold_left (offer cand) (s :: starts) best)
    with (fold_left (offer cand) starts (offer cand best s)).
  change (flat_map (offered cand) (s :: starts))
    with (offered cand s ++ flat_map (offered cand) starts).
  rewrite fold_left_app, <- Hfst. apply IH, Hok.
Qed.

Lemma fold_left_pointwise {A B : Type} (f g : A -> B -> A) (l : list B) :
  (forall a b, f a b = g a b) ->
  forall a, fold_left f l a = fold_left g l a.
Proof.
  intros Hfg. induction l as [|b l IH]; intros a; [reflexivity|].
  change (fold_left f l (f a b) = fold_left g l (g a b)).
  rewrite Hfg. apply IH.
Qed.

(** Each polarity returns the longest of its validated texts. *)
Lemma decode_with_polarity_longest (raw_bits : list Z) (flip : bool) :
  decode_with_polarity raw_bits flip
  = longest (validated_texts (apply_polarity raw_bits flip)).
Proof.
  unfold decode_with_polarity, longest.
  rewrite (fold_left_pointwise _ _ _
             (try_start_candidate (apply_polarity raw_bits flip))).
  exact (offer_fold (candidate_text (apply_polarity raw_bits flip)) _
                    (None, -1) eq_refl).
Qed.

Lemma keep_longer_fold (texts : list pystr) :
  forall best : option pystr,
    match fold_left keep_longer texts best with
    | None => best = None /\ texts = []
    | Some t =>
        (best = Some t \/ In t texts)
        /\ (forall c, best = Some c -> (length c <= length t)%nat)
        /\ (forall t', In t' texts -> (length t' <= length t)%nat)
    end.
Proof.
  induction texts as [|x texts IH]; intros best.
  - cbn. destruct best as [c|]; [|auto].
    split; [now left|]. split; [|intros t' []].
    intros c' [= ->]. lia.
  - cbn [fold_left]. specialize (IH (keep_longer best x)).
    destruct (fold_left keep_longer texts (keep_longer best x)) as [t|].
    + destruct IH as (Hsrc & Hbest & Hall).
      assert (Hx : (length x <= length t)%nat).
      { destruct best as [c|]; cbn [keep_longer] in Hbest.
        - destruct (length c <? length x)%nat eqn:E.
          + apply (Hbest x eq_refl).
          + apply Nat.ltb_ge in E. specialize (Hbest c eq_refl). lia.
        - apply (Hbest x eq_refl). }
      split; [|split].
      * destruct Hsrc as [Hk | Hin]; [|right; now right].
        destruct best as [c|]; cbn [keep_longer] in Hk.
        -- destruct (length c <? length x)%nat; injection Hk as <-;
             [right; now left | now left].
        -- injection Hk as <-. right. now left.
      * intros c ->. cbn [keep_longer] in Hbest.
        destruct (length c <? length x)%nat eqn:E.
        -- apply Nat.ltb_lt in E. lia.
        -- apply (Hbest c eq_refl).
      * intros t' [<- | Hin]; [exact Hx | now apply Hall].
    + destruct IH as [Hk _]. destruct best as [c|]; cbn [keep_longer] in Hk.
      * destruct (length c <? length x)%nat; discriminate.
      * discriminate.
Qed.


Lemma longest_some (texts : list pystr) (t : pystr) :
  longest texts = Some t ->
  In t texts /\ forall t', In t' texts -> (length t' <= length t)%nat.
Proof.
  unfold longest. pose proof (keep_longer_fold texts None) as H.
  intros E. rewrite E in H. destruct H as ([H | H] & _ & Hall);
    [discriminate | auto].
Qed.

Lemma decode_bits_longer_of (raw_bits : list Z) :
  decode_bits raw_bits
  = longer_of (decode_with_polarity raw_bits false)
              (decode_with_polarity raw_bits true).
Proof.
  unfold decode_bits, longer_of.
  destruct (decode_with_polarity raw_bits false) as [t0|],
           (decode_with_polarity raw_bits true) as [t1|]; try reflexivity.
  destruct (length t1 <=? length t0)%nat eqn:E.
  - apply Nat.leb_le in E.
    replace (length t0 <? length t1)%nat with false
      by (symmetry; apply Nat.ltb_ge; lia).
    reflexivity.
  - apply Nat.leb_gt in E.
    replace (length t0 <? length t1)%nat with true
      by (symmetry; apply Nat.ltb_lt; lia).
    reflexivity.
Qed.


(** C8: whatever the classifier, the decoder fails with [InsufficientData]
    exactly on the sample buffers that yield fewer than 200 whole 32-sample
    blocks, that is, on those of fewer than 6400 samples. *)
Theorem insufficient_data_iff
    (nearer_c1 : list (list Q) -> list Q -> bool) (pcm : list Q) :
  (decode_pcm nearer_c1 pcm = inl InsufficientData
   <-> (length pcm / BIT_SAMPLES < 200)%nat)
  /\ ((length pcm / BIT_SAMPLES < 200)%nat <-> Z.of_nat (length pcm) < 6400).
Proof.
  split.
  - unfold decode_pcm.
    destruct (length pcm / BIT_SAMPLES <? 200)%nat eqn:E.
    + apply Nat.ltb_lt in E. split; [intros _; exact E | reflexivity].
    + apply Nat.ltb_ge in E. split; [|lia].
      rewrite decode_bits_longer_of. unfold longer_of.
      destruct (decode_with_polarity _ false) as [a|],
               (decode_with_polarity _ true) as [b|]; try discriminate.
      destruct (length a <? length b)%nat; discriminate.
  - unfold BIT_SAMPLES.
    pose proof (Nat.div_mod_eq (length pcm) 32) as Hdiv.
    pose proof (Nat.mod_upper_bound (length pcm) 32 ltac:(discriminate))
      as Hmod.
    lia.
Qed.

Lemma candidate_text_some (bits : list Z) (s : nat) (text : pystr) :
  candidate_text bits s = Some text ->
  exists body,
    (10 <= length (fst (bits_to_bytes_uart bits s 10000)))%nat
    /\ try_bit_order_and_crc (fst (bits_to_bytes_uart bits s 10000))
       = Some body
    /\ (8 <= length body)%nat
    /\ (length body + 2
        = length (fst (bits_to_bytes_uart bits s 10000)))%nat
    /\ text = body_text body.
Proof.
  unfold candidate_text.
  destruct (length (fst (bits_to_bytes_uart bits s 10000)) <? 10)%nat eqn:E;
    [discriminate|].
  apply Nat.ltb_ge in E.
  destruct (try_bit_order_and_crc _) as [body|] eqn:Hb; [|discriminate].
  intros [= <-]. exists body.
  apply resolver_body_length in Hb.
  split; [exact E|]. split; [reflexivity|].
  split; [lia|]. split; [exact Hb | reflexivity].
Qed.

Lemma decode_with_polarity_some (raw_bits : list Z) (flip : bool)
    (text : pystr) :
  decode_with_polarity raw_bits flip = Some text ->
  exists s, In s (firstn 50 (find_frames (apply_polarity raw_bits flip)))
            /\ candidate_text (apply_polarity raw_bits flip) s = Some text.
Proof.
  rewrite decode_with_polarity_longest. intros H.
  apply longest_some in H as [Hin _]. unfold validated_texts in Hin.
  apply in_flat_map in Hin as (s & Hs & Ht). exists s. split; [exact Hs|].
  unfold offered in Ht. revert Ht.
  destruct (candidate_text (apply_polarity raw_bits flip) s) as [t|];
    cbn [In]; intros Ht; [|destruct Ht].
  destruct Ht as [-> | []]. reflexivity.
Qed.

(** C9: a parsed frame of fewer than 10 bytes leaves the best text
    untouched, whatever its checksum; so every text the decoder returns
    comes from a start candidate whose payload has at least 10 bytes and
    whose validated body, the payload less its trailer, has at least 8. *)
Theorem short_frames_discarded (raw_bits : list Z) :
  (forall flip best s,
     (length (fst (bits_to_bytes_uart (apply_polarity raw_bits flip) s 10000))
      < 10)%nat ->
     try_start (apply_polarity raw_bits flip) best s = best)
  /\ (forall text,
        decode_bits raw_bits = inr text ->
        exists flip s body,
          In s (firstn 50 (find_frames (apply_polarity raw_bits flip)))
          /\ (10 <= length (fst (bits_to_bytes_uart
                                   (apply_polarity raw_bits flip) s 10000)))%nat
          /\ try_bit_order_and_crc
               (fst (bits_to_bytes_uart (apply_polarity raw_bits flip)
                                        s 10000))
             = Some body
          /\ (8 <= length body)%nat
          /\ (length body + 2
              = length (fst (bits_to_bytes_uart
                               (apply_polarity raw_bits flip) s 10000)))%nat
          /\ text = body_text body).
Proof.
  split.
  - intros flip best s Hshort. unfold try_start.
    destruct (bits_to_bytes_uart _ s 10000) as [payload endpos].
    cbn [fst] in Hshort. apply Nat.ltb_lt in Hshort. now rewrite Hshort.
  - intros text H.
    assert (Hsrc : exists flip,
               decode_with_polarity raw_bits flip = Some text).
    { unfold decode_bits in H.
      destruct (decode_with_polarity raw_bits false) as [t0|] eqn:H0,
               (decode_with_polarity raw_bits true) as [t1|] eqn:H1.
      - destruct (length t1 <=? length t0)%nat; injection H as <-;
          [exists false | exists true]; assumption.
      - injection H as <-. now exists false.
      - injection H as <-. now exists true.
      - discriminate. }
    destruct Hsrc as (flip & Hflip).
    apply decode_with_polarity_some in Hflip as (s & Hs & Hc).
    apply candidate_text_some in Hc as (body & Hlen & Hbody & Hb8 & _ & ->).
    exists flip, s, body.
    split; [exact Hs|]. split; [exact Hlen|]. split; [exact Hbody|].
    split; [exact Hb8|]. split; [|reflexivity].
    apply resolver_body_length, Hbody.
Qed.

(** ** Polarity *)








(** ** The encoder's bit stream *)

Lemma uart_bits_length (p : list Z) :
  length (Encoder.uart_bits p) = (10 * length p)%nat.
Proof.
  induction p as [|b p IH]; cbn [Encoder.uart_bits length]; [lia|].
  rewrite !length_app. cbn [Encoder.data_bits_of map length]. lia.
Qed.

Lemma one_frame_length (p : list Z) :
  length (Encoder.one_frame p) = frame_width (length p).
Proof.
  unfold Encoder.one_frame, ones, frame_width.
  rewrite !length_app, !repeat_length, uart_bits_length.
  unfold Encoder.PREAMBLE_ONES, Encoder.POSTAMBLE_ONES. lia.
Qed.

Lemma bit_stream_frames (p : list Z) :
  Encoder.bit_stream p
  = Encoder.one_frame p ++ Encoder.one_frame p ++ Encoder.one_frame p.
Proof.
  unfold Encoder.bit_stream, Encoder.REPEAT. cbn [repeat concat].
  now rewrite app_nil_r.
Qed.

Lemma bit_stream_length (p : list Z) :
  length (Encoder.bit_stream p) = (3 * frame_width (length p))%nat.
Proof.
  rewrite bit_stream_frames, !length_app, one_frame_length. lia.
Qed.















(** ** The round trip *)

Lemma frame_payload_length (data : list Z) :
  length (Encoder.frame_payload data) = (length data + 2)%nat.
Proof. unfold Encoder.frame_payload. rewrite length_app. reflexivity. Qed.











Lemma land_1_bit (x : Z) : is_bit (Z.land x 1).
Proof.
  unfold is_bit.
  assert (H : Z.land x 1 = x mod 2)
    by (change 1 with (Z.ones 1); rewrite Z.land_ones by lia; reflexivity).
  rewrite H. pose proof (Z.mod_pos_bound x 2 ltac:(lia)). lia.
Qed.

Lemma uart_bits_are_bits (p : list Z) : Forall is_bit (Encoder.uart_bits p).
Proof.
  induction p as [|b p IH]; cbn [Encoder.uart_bits]; [constructor|].
  assert (Hdata : Forall is_bit (0 :: Encoder.data_bits_of b)).
  { constructor; [unfold is_bit; now left|].
    unfold Encoder.data_bits_of. apply Forall_forall. intros x Hx.
    apply in_map_iff in Hx as (i & <- & _). apply land_1_bit. }
  assert (Hstop : Forall is_bit [1])
    by (repeat constructor; unfold is_bit; now right).
  apply Forall_app. split; [exact Hdata|].
  apply Forall_app. split; [exact Hstop | exact IH].
Qed.







Lemma read_mono (rate : Z) (raw : list Z) :
  read_wav_int16 {| Encoder.nchannels := 1; Encoder.sampwidth := 2;
                    Encoder.framerate := rate; Encoder.frames := raw |}
  = inr (map inject_Z (frombuffer_i2 raw)).
Proof. reflexivity. Qed.


Lemma sent_bits_length (data : list Z) :
  length (sent_bits data) = (3 * (44 + 10 * length data))%nat.
Proof.
  unfold sent_bits. rewrite bit_stream_length, frame_payload_length.
  unfold frame_width. lia.
Qed.


Lemma written_some (o : option Encoder.wav) :
  match o with Some _ => true | None => false end = true ->
  o = Some (written o).
Proof. destruct o; [reflexivity | discriminate]. Qed.



(** The other conditions of the round trip are needed too. At amplitude
    2^-14 both waveforms are scaled to silence and nothing is recovered. *)
Example silent_amplitude_not_recovered :
  Encoder.scale 0x1p-14%float Encoder.BIT0
  = Encoder.scale 0x1p-14%float Encoder.BIT1
  /\ decode_config_string by_second_sample
       (written (Encoder.main hello_world Encoder.ls2 0 0x1p-14%float))
     = inl NoValidFrame.
Proof. split; vm_compute; reflexivity. Qed.

(** A text that begins with a NUL comes back without it. *)
Example leading_nul_stripped :
  decode_config_string by_second_sample
    (written (Encoder.main (0 :: hello_world) Encoder.ls2 0 1%float))
  = inr (hello_world ++ [10]).
Proof. vm_compute. reflexivity. Qed.

(** The as-sent scenario with twelve characters, at each device rate. *)
Example hello_world_recovered :
  forall dev,
    decode_config_string by_second_sample
      (written (Encoder.main hello_world dev 0 1%float))
    = inr (hello_world ++ [10]).
Proof. intros []; vm_compute; reflexivity. Qed.

(** ** The properties at concrete inputs *)

Lemma short_frames_discarded_witness :
  (try_bit_order_and_crc
     (fst (bits_to_bytes_uart (apply_polarity (sent_bits hello_nl) false)
                              12 10000))
   = Some hello_nl
   /\ try_start (apply_polarity (sent_bits hello_nl) false) (None, -1) 12
      = (None, -1))
  /\ exists flip s body,
       In s (firstn 50 (find_frames
                          (apply_polarity (sent_bits hello_world_nl)
                                          flip)))
       /\ (10 <= length (fst (bits_to_bytes_uart
                                (apply_polarity
                                   (sent_bits hello_world_nl) flip)
                                s 10000)))%nat
       /\ try_bit_order_and_crc
            (fst (bits_to_bytes_uart
                    (apply_polarity (sent_bits hello_world_nl) flip)
                    s 10000))
          = Some body
       /\ (8 <= length body)%nat
       /\ (length body + 2
           = length (fst (bits_to_bytes_uart
                            (apply_polarity
                               (sent_bits hello_world_nl) flip)
                            s 10000)))%nat
       /\ hello_world_nl = body_text body.
Proof.
  split; [split|].
  - vm_compute. reflexivity.
  - apply (proj1 (short_frames_discarded (sent_bits hello_nl))
                 false (None, -1) 12%nat).
    vm_compute. lia.
  - apply (proj2 (short_frames_discarded (sent_bits hello_world_nl))
                 hello_world_nl).
    vm_compute. reflexivity.
Defined.


Lemma find_frames_spec_witness :
  exists r,
    In r (find_frames (ones 8 ++ [0] ++ repeat 0 41 ++ ones 8 ++ [0]))
    /\ (r <= 58 <= r + 50)%nat.
Proof.
  apply (proj2 (proj2 (proj2 (proj2
           (find_frames_spec
              (ones 8 ++ [0] ++ repeat 0 41 ++ ones 8 ++ [0])))))
         58%nat).
  apply run_endb_spec; [vm_compute; lia | vm_compute; reflexivity].
Defined.

(** * Further properties of the encoder and the decoder *)

(** ** The checksum as a linear code *)

Lemma z_range_complete (n : nat) :
  forall lo c, lo <= c < lo + Z.of_nat n -> In c (z_range lo n).
Proof.
  induction n as [|n IH]; intros lo c Hc; [lia|].
  cbn [z_range]. destruct (Z.eq_dec lo c) as [-> | Hne]; [now left|].
  right. apply IH. lia.
Qed.

Lemma all_words_complete (c : Z) : 0 <= c < 65536 -> In c all_words.
Proof.
  intros Hc. unfold all_words. apply z_range_complete.
  change (Z.of_nat (256 * 256)) with 65536. lia.
Qed.

Lemma word_cases (P : Z -> bool) :
  forallb P all_words = true -> forall c, 0 <= c < 65536 -> P c = true.
Proof.
  intros H c Hc. rewrite forallb_forall in H.
  apply H, all_words_complete, Hc.
Qed.

Lemma crc16_gen_register (data : list Z) (poly init : Z) :
  crc16_gen data poly init = Z.land (crc_register data poly init) 0xFFFF.
Proof. reflexivity. Qed.

Lemma crc_feed_range (poly crc b : Z) : 0 <= crc_feed poly crc b < 65536.
Proof. apply crc_byte_range. Qed.

Lemma crc_register_range (data : list Z) (poly init : Z) :
  0 <= init < 65536 -> 0 <= crc_register data poly init < 65536.
Proof. apply crc_fold_range. Qed.

Lemma land_ffff_small (c : Z) : 0 <= c < 65536 -> Z.land c 0xFFFF = c.
Proof.
  intros Hc. change 0xFFFF with (Z.ones 16). rewrite Z.land_ones by lia.
  apply Z.mod_small. exact Hc.
Qed.

(** Feeding a register its own two bytes, high byte first, empties it. *)
Lemma crc_feed_own_bytes (c : Z) :
  0 <= c < 65536 ->
  crc_feed 0x1021 (crc_feed 0x1021 c (Z.land (Z.shiftr c 8) 0xFF))
           (Z.land c 0xFF)
  = 0.
Proof.
  intros Hc. apply Z.eqb_eq.
  apply (word_cases
           (fun c => crc_feed 0x1021
                       (crc_feed 0x1021 c (Z.land (Z.shiftr c 8) 0xFF))
                       (Z.land c 0xFF) =? 0));
    [vm_compute; reflexivity | exact Hc].
Qed.

(** X1: a body followed by the two big-endian bytes of its checksum has
    checksum 0, for both initial values (0x0000 and 0xFFFF). *)
Theorem crc_of_framed_payload_is_zero (data : list Z) :
  crc16_xmodem (data ++ Encoder.crc_trailer (crc16_xmodem data)) = 0
  /\ crc16_ccitt_false (data ++ Encoder.crc_trailer (crc16_ccitt_false data))
     = 0.
Proof.
  assert (H : forall init, 0 <= init < 65536 ->
            crc16_gen (data ++ Encoder.crc_trailer
                                 (crc16_gen data 0x1021 init)) 0x1021 init
            = 0).
  { intros init Hinit. rewrite !crc16_gen_register.
    pose proof (crc_register_range data 0x1021 init Hinit) as Hr.
    rewrite (land_ffff_small _ Hr).
    unfold crc_register at 1. rewrite fold_left_app.
    fold (crc_register data 0x1021 init).
    cbn [Encoder.crc_trailer fold_left].
    rewrite crc_feed_own_bytes by exact Hr. reflexivity. }
  split; apply H; lia.
Qed.

Lemma crc_shift_test (a : Z) :
  (Z.land a 0x8000 =? 0) = negb (Z.testbit a 15).
Proof.
  change 0x8000 with (2 ^ 15).
  destruct (Z.testbit a 15) eqn:E; cbn [negb].
  - apply Z.eqb_neq. intros H.
    assert (Hb : Z.testbit (Z.land a (2 ^ 15)) 15 = true).
    { rewrite Z.land_spec, E, Z.pow2_bits_eqb by lia. reflexivity. }
    rewrite H, Z.bits_0 in Hb. discriminate.
  - apply Z.eqb_eq. apply Z.bits_inj'. intros n Hn.
    rewrite Z.land_spec, Z.pow2_bits_eqb, Z.bits_0 by lia.
    destruct (Z.eqb_spec 15 n) as [<- | _];
      [now rewrite E | apply andb_false_r].
Qed.

(** One shift of the register is linear over exclusive or. *)
Lemma crc_shift_lxor (poly a b : Z) :
  Decoder.crc_shift poly (Z.lxor a b)
  = Z.lxor (Decoder.crc_shift poly a) (Decoder.crc_shift poly b).
Proof.
  unfold Decoder.crc_shift. rewrite !crc_shift_test, Z.lxor_spec.
  destruct (Z.testbit a 15), (Z.testbit b 15); cbn [xorb negb];
    apply Z.bits_inj'; intros n Hn;
    repeat rewrite ?Z.land_spec, ?Z.lxor_spec, ?Z.shiftl_spec by lia;
    destruct (Z.testbit a (n - 1)), (Z.testbit b (n - 1)),
      (Z.testbit poly n), (Z.testbit 65535 n); reflexivity.
Qed.

Lemma crc_shifts_lxor (poly : Z) (k : nat) (a b : Z) :
  Nat.iter k (Decoder.crc_shift poly) (Z.lxor a b)
  = Z.lxor (Nat.iter k (Decoder.crc_shift poly) a)
           (Nat.iter k (Decoder.crc_shift poly) b).
Proof.
  induction k as [|k IH]; [reflexivity|].
  rewrite !Nat.iter_succ, IH. apply crc_shift_lxor.
Qed.

(** A difference [d] between two registers evolves on its own, as if fed
    zero bytes. *)
Lemma crc_feed_lxor (poly c d b : Z) :
  crc_feed poly (Z.lxor c d) b
  = Z.lxor (crc_feed poly c b) (crc_feed poly d 0).
Proof.
  unfold crc_feed. rewrite Z.shiftl_0_l, Z.lxor_0_r, <- crc_shifts_lxor.
  f_equal. rewrite !Z.lxor_assoc. f_equal. apply Z.lxor_comm.
Qed.

Lemma crc_register_lxor (poly : Z) (data : list Z) :
  forall c d,
    crc_register data poly (Z.lxor c d)
    = Z.lxor (crc_register data poly c)
             (crc_register (map (fun _ => 0) data) poly d).
Proof.
  unfold crc_register. induction data as [|b data IH]; intros c d;
    [reflexivity|].
  cbn [fold_left map]. rewrite crc_feed_lxor. apply IH.
Qed.

(** A non-zero difference never dies out. *)
Lemma crc_idle_nonzero (d : Z) :
  0 <= d < 65536 -> d <> 0 -> crc_feed 0x1021 d 0 <> 0.
Proof.
  intros Hd Hnz.
  assert (H : (d =? 0) || negb (crc_feed 0x1021 d 0 =? 0) = true).
  { apply (word_cases
             (fun d => (d =? 0) || negb (crc_feed 0x1021 d 0 =? 0)));
      [vm_compute; reflexivity | exact Hd]. }
  apply orb_true_iff in H as [H | H].
  - apply Z.eqb_eq in H. contradiction.
  - apply negb_true_iff, Z.eqb_neq in H. exact H.
Qed.

Lemma crc_idle_run_nonzero (zeros : list Z) :
  forall d,
    0 <= d < 65536 -> d <> 0 ->
    0 <= crc_register (map (fun _ => 0) zeros) 0x1021 d < 65536
    /\ crc_register (map (fun _ => 0) zeros) 0x1021 d <> 0.
Proof.
  unfold crc_register. induction zeros as [|z zeros IH]; intros d Hd Hnz;
    [split; assumption|].
  cbn [map fold_left]. apply IH.
  - apply crc_feed_range.
  - now apply crc_idle_nonzero.
Qed.

(** The difference a changed byte leaves in the register. *)
Lemma crc_changed_byte (b b' : Z) :
  is_byte b -> is_byte b' -> b <> b' ->
  crc_feed 0x1021 0 (Z.lxor b b') <> 0.
Proof.
  intros Hb Hb' Hne.
  assert (H : forallb (fun y => (b =? y)
                                || negb (crc_feed 0x1021 0 (Z.lxor b y) =? 0))
                      all_bytes = true).
  { apply (byte_cases
             (fun x => forallb
                         (fun y => (x =? y)
                                   || negb (crc_feed 0x1021 0 (Z.lxor x y)
                                            =? 0))
                         all_bytes));
      [vm_compute; reflexivity | exact Hb]. }
  rewrite forallb_forall in H.
  specialize (H b' (all_bytes_complete b' Hb')).
  apply orb_true_iff in H as [H | H].
  - apply Z.eqb_eq in H. contradiction.
  - apply negb_true_iff, Z.eqb_neq in H. exact H.
Qed.

Lemma land_lxor_distr (a b m : Z) :
  Z.land (Z.lxor a b) m = Z.lxor (Z.land a m) (Z.land b m).
Proof.
  apply Z.bits_inj'. intros n _.
  rewrite !Z.lxor_spec, !Z.land_spec, Z.lxor_spec.
  destruct (Z.testbit a n), (Z.testbit b n), (Z.testbit m n); reflexivity.
Qed.

Lemma lxor_changes (x d : Z) : d <> 0 -> Z.lxor x d <> x.
Proof.
  intros Hd H. apply Hd.
  assert (Hd' : Z.lxor x (Z.lxor x d) = d)
    by (rewrite <- Z.lxor_assoc, Z.lxor_nilpotent; apply Z.lxor_0_l).
  rewrite H, Z.lxor_nilpotent in Hd'. now symmetry.
Qed.

(** X2: the checksum tells apart any two byte sequences that differ in
    exactly one byte, whatever the initial value: a corruption confined to
    one byte always changes the CRC. *)
Theorem crc_detects_one_changed_byte
    (pre post : list Z) (b b' init : Z) :
  is_byte b -> is_byte b' -> b <> b' ->
  crc16_gen (pre ++ b :: post) 0x1021 init
  <> crc16_gen (pre ++ b' :: post) 0x1021 init.
Proof.
  intros Hb Hb' Hne. rewrite !crc16_gen_register.
  unfold crc_register. rewrite !fold_left_app. cbn [fold_left].
  fold (crc_register pre 0x1021 init).
  set (r := crc_register pre 0x1021 init).
  assert (Hfeed : crc_feed 0x1021 r b'
                  = Z.lxor (crc_feed 0x1021 r b)
                           (crc_feed 0x1021 0 (Z.lxor b b'))).
  { unfold crc_feed. rewrite <- crc_shifts_lxor. f_equal.
    rewrite Z.lxor_0_l, Z.shiftl_lxor, Z.lxor_assoc. f_equal.
    rewrite <- Z.lxor_assoc, Z.lxor_nilpotent. symmetry. apply Z.lxor_0_l. }
  rewrite Hfeed.
  fold (crc_register post 0x1021 (crc_feed 0x1021 r b)).
  fold (crc_register post 0x1021
          (Z.lxor (crc_feed 0x1021 r b)
                  (crc_feed 0x1021 0 (Z.lxor b b')))).
  rewrite crc_register_lxor.
  destruct (crc_idle_run_nonzero post (crc_feed 0x1021 0 (Z.lxor b b'))
              (crc_feed_range _ _ _) (crc_changed_byte b b' Hb Hb' Hne))
    as [Hrange Hnz].
  rewrite land_lxor_distr, (land_ffff_small _ Hrange).
  intros H. symmetry in H. revert H. now apply lxor_changes.
Qed.

Lemma crc_detects_one_changed_byte_witness :
  crc16_gen ([104; 101] ++ 108 :: [108; 111]) 0x1021 0
  <> crc16_gen ([104; 101] ++ 109 :: [108; 111]) 0x1021 0.
Proof.
  apply (crc_detects_one_changed_byte [104; 101] [108; 111] 108 109 0);
    unfold is_byte; lia.
Defined.

(** X3: the encoder's [crc16_xmodem] and the decoder's compute the same
    value on every input, and it fits in 16 bits: the two bytes the encoder
    appends are the whole checksum. *)
Theorem encoder_and_decoder_crc_agree (data : list Z) :
  Encoder.crc16_xmodem data = Decoder.crc16_xmodem data
  /\ 0 <= Encoder.crc16_xmodem data < 65536
  /\ trailer_of (data ++ Encoder.crc_trailer (Encoder.crc16_xmodem data))
     = Decoder.crc16_xmodem data.
Proof.
  destruct (encoder_crc data) as [Heq Hrange].
  split; [exact Heq|]. split; [exact Hrange|].
  unfold trailer_of. rewrite length_app. cbn [Encoder.crc_trailer length].
  replace (length data + 2 - 2)%nat with (length data + 0)%nat by lia.
  replace (length data + 2 - 1)%nat with (length data + 1)%nat by lia.
  rewrite !nth_past_prefix. cbn [Encoder.crc_trailer nth].
  rewrite trailer_value by exact Hrange. exact Heq.
Qed.

(** ** More on the UART frame parser *)

#[local] Transparent bits_to_bytes_uart try_bit_order_and_crc.

Lemma lor_bound (a b n : Z) :
  0 <= a < 2 ^ n -> 0 <= b < 2 ^ n -> 0 <= Z.lor a b < 2 ^ n.
Proof.
  intros Ha Hb.
  assert (Hn : 0 <= n).
  { destruct (Z.lt_ge_cases n 0) as [H | H]; [|exact H].
    rewrite Z.pow_neg_r in Ha by exact H. lia. }
  split; [apply Z.lor_nonneg; lia|].
  destruct (Z.eq_dec (Z.lor a b) 0) as [-> | Hnz]; [lia|].
  assert (Hpos : 0 < Z.lor a b)
    by (pose proof (proj2 (Z.lor_nonneg a b) (conj (proj1 Ha) (proj1 Hb)));
        lia).
  assert (Hn0 : 0 < n).
  { destruct (Z.eq_dec n 0) as [-> | H]; [|lia].
    exfalso. apply Hnz. change (2 ^ 0) with 1 in Ha, Hb.
    replace a with 0 by lia. replace b with 0 by lia. reflexivity. }
  apply Z.log2_lt_pow2; [exact Hpos|].
  rewrite Z.log2_lor by lia.
  assert (Hlog : forall x, 0 <= x < 2 ^ n -> Z.log2 x < n).
  { intros x Hx. destruct (Z.eq_dec x 0) as [-> | Hx0]; [exact Hn0|].
    apply Z.log2_lt_pow2; lia. }
  apply Z.max_lub_lt; apply Hlog; assumption.
Qed.

Lemma msb_first_step_bound (data_bits : list Z) :
  forall val k,
    0 <= k -> 0 <= val < 2 ^ k ->
    0 <= fold_left (fun val b => Z.lor (Z.shiftl val 1) (Z.land b 1))
                   data_bits val
      < 2 ^ (k + Z.of_nat (length data_bits)).
Proof.
  induction data_bits as [|b data_bits IH]; intros val k Hk Hval.
  - cbn [fold_left length]. now rewrite Z.add_0_r.
  - cbn [fold_left length].
    replace (k + Z.of_nat (S (length data_bits)))
      with ((k + 1) + Z.of_nat (length data_bits)) by lia.
    apply IH; [lia|]. apply lor_bound.
    + rewrite Z.shiftl_mul_pow2 by lia. rewrite Z.pow_add_r by lia.
      change (2 ^ 1) with 2. lia.
    + pose proof (land_1_bit b) as Hbit. unfold is_bit in Hbit.
      assert (2 <= 2 ^ (k + 1)).
      { rewrite Z.pow_add_r by lia. change (2 ^ 1) with 2.
        pose proof (Z.pow_pos_nonneg 2 k ltac:(lia) Hk). lia. }
      lia.
Qed.

Lemma frame_val_byte (bits : list Z) (i : nat) : is_byte (frame_val bits i).
Proof.
  unfold frame_val, msb_first, slice, is_byte.
  set (data_bits := firstn (i + 9 - (i + 1)) (skipn (i + 1) bits)).
  assert (Hlen : (length data_bits <= 8)%nat).
  { subst data_bits. rewrite length_firstn. lia. }
  pose proof (msb_first_step_bound data_bits 0 0 ltac:(lia) ltac:(lia))
    as Hb.
  assert (Hpow : 2 ^ (0 + Z.of_nat (length data_bits)) <= 2 ^ 8)
    by (apply Z.pow_le_mono_r; lia).
  change (2 ^ 8) with 256 in Hpow. lia.
Qed.

(** X4: every value the parser returns is a byte (0..255), whatever
    integers the bit sequence holds, so collecting them in a [bytearray]
    never fails. *)
Theorem parsed_values_are_bytes (bits : list Z) (start_pos max_bytes : nat) :
  Forall is_byte (fst (bits_to_bytes_uart bits start_pos max_bytes)).
Proof.
  unfold bits_to_bytes_uart.
  destruct (uart_loop_spec bits max_bytes [] start_pos) as (k & _ & -> & _).
  cbn [fst app]. unfold frame_bytes. apply Forall_forall. intros v Hv.
  apply in_map_iff in Hv as (j & <- & _). apply frame_val_byte.
Qed.

Lemma firstn_of_seq (c : nat) :
  forall a k, firstn c (seq a k) = seq a (Nat.min c k).
Proof.
  induction c as [|c IH]; intros a [|k]; cbn [firstn seq Nat.min];
    try reflexivity.
  now rewrite IH.
Qed.

Lemma frame_bytes_firstn (bits : list Z) (start c k : nat) :
  firstn c (frame_bytes bits start k) = frame_bytes bits start (Nat.min c k).
Proof.
  unfold frame_bytes. rewrite firstn_map, firstn_of_seq. reflexivity.
Qed.

(** X5: the byte cap only truncates. With a smaller cap the parser returns
    the first bytes of what it returns with a larger one, and a parse that
    stops below its cap is not changed by raising the cap. *)
Theorem byte_cap_only_truncates (bits : list Z) (start_pos c c' : nat) :
  (c <= c')%nat ->
  fst (bits_to_bytes_uart bits start_pos c)
  = firstn c (fst (bits_to_bytes_uart bits start_pos c'))
  /\ ((length (fst (bits_to_bytes_uart bits start_pos c)) < c)%nat ->
      bits_to_bytes_uart bits start_pos c'
      = bits_to_bytes_uart bits start_pos c).
Proof.
  intros Hc. unfold bits_to_bytes_uart.
  destruct (uart_loop_spec bits c [] start_pos)
    as (k & Hk & -> & Hall & Hend).
  destruct (uart_loop_spec bits c' [] start_pos)
    as (k' & Hk' & -> & Hall' & Hend').
  cbn [fst app]. rewrite frame_bytes_firstn, frame_bytes_length.
  assert (Hmin : k = Nat.min c k').
  { destruct (Nat.lt_trichotomy k (Nat.min c k')) as [Hlt | [Heq | Hgt]];
      [|exact Heq|].
    - destruct Hend as [-> | Hbad]; [lia|].
      rewrite Hall' in Hbad by lia. discriminate.
    - destruct Hend' as [-> | Hbad']; [lia|].
      rewrite Hall in Hbad' by lia. discriminate. }
  split; [now rewrite <- Hmin|].
  intros Hlt. assert (k' = k) by lia. now subst k'.
Qed.

Lemma byte_cap_only_truncates_witness :
  fst (bits_to_bytes_uart (Encoder.uart_bits hello_nl) 0 2)
  = firstn 2 (fst (bits_to_bytes_uart (Encoder.uart_bits hello_nl)
                                      0 10000))
  /\ ((length (fst (bits_to_bytes_uart (Encoder.uart_bits hello_nl)
                                       0 2)) < 2)%nat ->
      bits_to_bytes_uart (Encoder.uart_bits hello_nl) 0 10000
      = bits_to_bytes_uart (Encoder.uart_bits hello_nl) 0 2).
Proof.
  apply (byte_cap_only_truncates (Encoder.uart_bits hello_nl) 0 2 10000).
  apply Nat.leb_le. reflexivity.
Defined.

(** ** More on the bit-order and checksum resolver *)

Lemma nth_of_skipn {A : Type} (n : nat) :
  forall (l : list A) (k : nat) (d : A),
    nth k (skipn n l) d = nth (n + k) l d.
Proof.
  induction n as [|n IH]; intros l k d; [reflexivity|].
  destruct l as [|x l]; [now destruct k | apply IH].
Qed.

Lemma reverse_bits_facts (b : Z) :
  is_byte b ->
  is_byte (reverse_bits_in_byte b)
  /\ reverse_bits_in_byte (reverse_bits_in_byte b) = b
  /\ msb_first (rev (Encoder.data_bits_of b)) = reverse_bits_in_byte b.
Proof.
  intros Hb.
  assert (H : (0 <=? reverse_bits_in_byte b)
              && (reverse_bits_in_byte b <? 256)
              && (reverse_bits_in_byte (reverse_bits_in_byte b) =? b)
              && (msb_first (rev (Encoder.data_bits_of b))
                  =? reverse_bits_in_byte b) = true).
  { apply (byte_cases
             (fun b => (0 <=? reverse_bits_in_byte b)
                       && (reverse_bits_in_byte b <? 256)
                       && (reverse_bits_in_byte (reverse_bits_in_byte b) =? b)
                       && (msb_first (rev (Encoder.data_bits_of b))
                           =? reverse_bits_in_byte b)));
      [vm_compute; reflexivity | exact Hb]. }
  apply andb_prop in H as [H H4]. apply andb_prop in H as [H H3].
  apply andb_prop in H as [H1 H2].
  apply Z.leb_le in H1. apply Z.ltb_lt in H2. apply Z.eqb_eq in H3, H4.
  unfold is_byte. auto.
Qed.

(** X6: on bytes, [reverse_bits_in_byte] yields a byte, undoes itself, and
    is the value of the byte's eight data bits read in the opposite order:
    what the parser assembles when a byte's bits arrive least significant
    bit first. *)
Theorem reverse_bits_in_byte_spec (b : Z) :
  is_byte b ->
  is_byte (reverse_bits_in_byte b)
  /\ reverse_bits_in_byte (reverse_bits_in_byte b) = b
  /\ msb_first (rev (Encoder.data_bits_of b)) = reverse_bits_in_byte b.
Proof. apply reverse_bits_facts. Qed.

Lemma reverse_bits_in_byte_spec_witness :
  is_byte (reverse_bits_in_byte 0x68)
  /\ reverse_bits_in_byte (reverse_bits_in_byte 0x68) = 0x68
  /\ msb_first (rev (Encoder.data_bits_of 0x68)) = reverse_bits_in_byte 0x68.
Proof. apply (reverse_bits_in_byte_spec 0x68). unfold is_byte. lia. Defined.

Lemma first_crc_match_checksum (cand : list Z) :
  first_crc_match [crc16_xmodem; crc16_ccitt_false] (body_of cand)
                  (trailer_of cand)
  = if checksum_ok cand then Some (body_of cand) else None.
Proof.
  unfold checksum_ok. cbn [first_crc_match].
  destruct (crc16_xmodem (body_of cand) =? trailer_of cand); [reflexivity|].
  destruct (crc16_ccitt_false (body_of cand) =? trailer_of cand);
    reflexivity.
Qed.

Lemma candidate_trailer (cand : list Z) :
  (3 <= length cand)%nat ->
  Z.lor (Z.shiftl (nth 0 (skipn (length cand - 2) cand) 0) 8)
        (nth 1 (skipn (length cand - 2) cand) 0)
  = trailer_of cand.
Proof.
  intros Hlen. unfold trailer_of. rewrite !nth_of_skipn.
  replace (length cand - 2 + 0)%nat with (length cand - 2)%nat by lia.
  replace (length cand - 2 + 1)%nat with (length cand - 1)%nat by lia.
  reflexivity.
Qed.

(** The resolver in closed form: the payload as parsed is tried first, then
    the payload with every byte reversed. *)
Lemma resolver_closed_form (payload : list Z) :
  try_bit_order_and_crc payload
  = if (length payload <? 3)%nat then None
    else if checksum_ok payload then Some (body_of payload)
    else if checksum_ok (map reverse_bits_in_byte payload)
         then Some (body_of (map reverse_bits_in_byte payload))
    else None.
Proof.
  unfold try_bit_order_and_crc.
  destruct (length payload <? 3)%nat eqn:E; [reflexivity|].
  cbn [first_valid]. rewrite length_map, E.
  apply Nat.ltb_ge in E.
  rewrite (candidate_trailer payload E).
  fold (body_of payload). rewrite first_crc_match_checksum.
  destruct (checksum_ok payload); [reflexivity|].
  assert (E' : (3 <= length (map reverse_bits_in_byte payload))%nat)
    by (rewrite length_map; exact E).
  pose proof (candidate_trailer _ E') as Ht. rewrite length_map in Ht.
  rewrite Ht.
  replace (firstn (length payload - 2) (map reverse_bits_in_byte payload))
    with (body_of (map reverse_bits_in_byte payload))
    by (unfold body_of; now rewrite length_map).
  rewrite first_crc_match_checksum.
  destruct (checksum_ok (map reverse_bits_in_byte payload)); reflexivity.
Qed.

(** X7: a body the resolver returns always passes a checksum. It is the
    payload without its last two bytes, as parsed when that validates, and
    otherwise with every byte bit-reversed; a payload of fewer than 3 bytes
    is never accepted. *)
Theorem resolver_returns_checked_body (payload body : list Z) :
  try_bit_order_and_crc payload = Some body ->
  (3 <= length payload)%nat
  /\ (length body + 2 = length payload)%nat
  /\ ((body = body_of payload /\ checksum_ok payload = true)
      \/ (body = body_of (map reverse_bits_in_byte payload)
          /\ checksum_ok (map reverse_bits_in_byte payload) = true
          /\ checksum_ok payload = false)).
Proof.
  intros H. pose proof (resolver_body_length payload body H) as Hlen.
  rewrite resolver_closed_form in H.
  destruct (length payload <? 3)%nat eqn:E; [discriminate|].
  apply Nat.ltb_ge in E. split; [exact E|]. split; [exact Hlen|].
  destruct (checksum_ok payload) eqn:E1.
  - injection H as <-. left. split; reflexivity.
  - destruct (checksum_ok (map reverse_bits_in_byte payload)) eqn:E2;
      [|discriminate].
    injection H as <-. right. repeat split; reflexivity.
Qed.

Lemma resolver_returns_checked_body_witness :
  (3 <= length (Encoder.frame_payload hello_nl))%nat
  /\ (length hello_nl + 2 = length (Encoder.frame_payload hello_nl))%nat
  /\ ((hello_nl = body_of (Encoder.frame_payload hello_nl)
       /\ checksum_ok (Encoder.frame_payload hello_nl) = true)
      \/ (hello_nl = body_of (map reverse_bits_in_byte
                                  (Encoder.frame_payload hello_nl))
          /\ checksum_ok (map reverse_bits_in_byte
                              (Encoder.frame_payload hello_nl)) = true
          /\ checksum_ok (Encoder.frame_payload hello_nl) = false)).
Proof.
  apply (resolver_returns_checked_body (Encoder.frame_payload hello_nl)
                                       hello_nl).
  vm_compute. reflexivity.
Defined.

Lemma crc_trailer_bytes (crc : Z) : Forall is_byte (Encoder.crc_trailer crc).
Proof.
  assert (H : forall x, is_byte (Z.land x 0xFF)).
  { intros x. unfold is_byte. change 0xFF with (Z.ones 8).
    rewrite Z.land_ones by lia. change 256 with (2 ^ 8).
    apply Z.mod_pos_bound. lia. }
  unfold Encoder.crc_trailer. repeat constructor; apply H.
Qed.

Lemma reverse_bits_twice (l : list Z) :
  Forall is_byte l ->
  map reverse_bits_in_byte (map reverse_bits_in_byte l) = l.
Proof.
  induction 1 as [|b l Hb _ IH]; [reflexivity|].
  cbn [map]. rewrite IH. f_equal. apply (reverse_bits_facts b Hb).
Qed.

Lemma framed_checksum_ok (b : list Z) (crc : Z) :
  0 <= crc < 65536 ->
  crc16_xmodem b = crc \/ crc16_ccitt_false b = crc ->
  body_of (b ++ Encoder.crc_trailer crc) = b
  /\ checksum_ok (b ++ Encoder.crc_trailer crc) = true.
Proof.
  intros Hrange Hcrc.
  assert (Hbody : body_of (b ++ Encoder.crc_trailer crc) = b)
    by (apply (split_trailer b (Encoder.crc_trailer crc) eq_refl)).
  assert (Htr : trailer_of (b ++ Encoder.crc_trailer crc) = crc).
  { unfold trailer_of. rewrite length_app. cbn [Encoder.crc_trailer length].
    replace (length b + 2 - 2)%nat with (length b + 0)%nat by lia.
    replace (length b + 2 - 1)%nat with (length b + 1)%nat by lia.
    rewrite !nth_past_prefix. cbn [nth]. now apply trailer_value. }
  split; [exact Hbody|]. unfold checksum_ok. rewrite Hbody, Htr.
  apply orb_true_iff. destruct Hcrc as [-> | ->];
    [left | right]; apply Z.eqb_refl.
Qed.

(** X8: the resolver undoes a least-significant-bit-first sender. When
    every byte of a framed payload (a body and the two bytes of either
    checksum) reaches it bit-reversed and does not validate as it stands,
    the resolver returns the original body. *)
Theorem resolver_accepts_reversed_payload (b : list Z) (crc : Z) :
  Forall is_byte b ->
  b <> [] ->
  crc = crc16_xmodem b \/ crc = crc16_ccitt_false b ->
  checksum_ok (map reverse_bits_in_byte (b ++ Encoder.crc_trailer crc))
  = false ->
  try_bit_order_and_crc
    (map reverse_bits_in_byte (b ++ Encoder.crc_trailer crc))
  = Some b.
Proof.
  intros Hb Hne Hcrc Hasis. rewrite resolver_closed_form, Hasis.
  assert (Hrange : 0 <= crc < 65536)
    by (destruct Hcrc as [-> | ->]; apply crc16_gen_range).
  rewrite length_map, length_app. cbn [Encoder.crc_trailer length].
  replace (length b + 2 <? 3)%nat with false.
  2: { symmetry. apply Nat.ltb_ge. destruct b; [congruence|].
       cbn [length]. lia. }
  rewrite reverse_bits_twice
    by (apply Forall_app; split; [exact Hb | apply crc_trailer_bytes]).
  destruct (framed_checksum_ok b crc Hrange) as [-> ->];
    [destruct Hcrc as [-> | ->]; auto | reflexivity].
Qed.

Lemma resolver_accepts_reversed_payload_witness :
  try_bit_order_and_crc
    (map reverse_bits_in_byte
         (hello_nl ++ Encoder.crc_trailer (crc16_xmodem hello_nl)))
  = Some hello_nl.
Proof.
  apply (resolver_accepts_reversed_payload hello_nl (crc16_xmodem hello_nl)).
  - repeat constructor; unfold is_byte; lia.
  - discriminate.
  - left. reflexivity.
  - vm_compute. reflexivity.
Defined.

#[local] Opaque bits_to_bytes_uart try_bit_order_and_crc.

(** ** More on the encoder *)

Lemma to_bytes_le16_bytes (s : Z) : Forall is_byte (Encoder.to_bytes_le16 s).
Proof.
  unfold Encoder.to_bytes_le16, is_byte.
  repeat constructor; Z.to_euclidean_division_equations; lia.
Qed.

Lemma render_length (b0 b1 bits : list Z) :
  length b0 = BIT_SAMPLES ->
  length b1 = BIT_SAMPLES ->
  length (Encoder.render b0 b1 bits) = (64 * length bits)%nat.
Proof.
  intros H0 H1.
  assert (Hflat : forall l, length (flat_map Encoder.to_bytes_le16 l)
                            = (2 * length l)%nat).
  { induction l as [|x l IH]; [reflexivity|].
    cbn [flat_map length Encoder.to_bytes_le16 app]. rewrite IH. lia. }
  induction bits as [|b bits IH]; [reflexivity|].
  cbn [Encoder.render length]. rewrite length_app, Hflat, IH.
  unfold BIT_SAMPLES in *. destruct (b =? 0); lia.
Qed.

Lemma render_bytes (b0 b1 bits : list Z) :
  Forall is_byte (Encoder.render b0 b1 bits).
Proof.
  assert (Hflat : forall l, Forall is_byte (flat_map Encoder.to_bytes_le16 l)).
  { induction l as [|x l IH]; [constructor|].
    cbn [flat_map]. apply Forall_app. split;
      [apply to_bytes_le16_bytes | exact IH]. }
  induction bits as [|b bits IH]; [constructor|].
  cbn [Encoder.render]. apply Forall_app. split; [apply Hflat | exact IH].
Qed.

(** X9: when [bits_to_pcm] accepts the amplitude it writes 64 bytes per
    bit, each a byte; read back as little-endian signed 16-bit samples they
    are, bit after bit, the 32 samples of the scaled [BIT0] for a zero bit
    and of the scaled [BIT1] for any other, all within the 16-bit range. *)
Theorem bits_to_pcm_renders_templates
    (bits : list Z) (amp : float) (pcm : list Z) :
  Encoder.bits_to_pcm bits amp = Some pcm ->
  length pcm = (64 * length bits)%nat
  /\ Forall is_byte pcm
  /\ exists b0 b1,
       Encoder.scale amp Encoder.BIT0 = Some b0
       /\ Encoder.scale amp Encoder.BIT1 = Some b1
       /\ length b0 = 32%nat /\ length b1 = 32%nat
       /\ frombuffer_i2 pcm = flat_map (template b0 b1) bits
       /\ Forall is_int16 (frombuffer_i2 pcm).
Proof.
  unfold Encoder.bits_to_pcm.
  destruct (negb _); [discriminate|].
  destruct (Encoder.scale amp Encoder.BIT0) as [b0|] eqn:Hb0;
    [|discriminate].
  destruct (Encoder.scale amp Encoder.BIT1) as [b1|] eqn:Hb1;
    [|discriminate].
  intros [= <-].
  destruct (scale_spec amp _ _ Hb0) as [Hl0 Hr0].
  destruct (scale_spec amp _ _ Hb1) as [Hl1 Hr1].
  change (length Encoder.BIT0) with BIT_SAMPLES in Hl0.
  change (length Encoder.BIT1) with BIT_SAMPLES in Hl1.
  split; [now apply render_length|]. split; [apply render_bytes|].
  exists b0, b1. rewrite frombuffer_render by assumption.
  repeat split; try assumption; try reflexivity.
  apply Forall_forall. intros v Hv.
  apply in_flat_map in Hv as (b & _ & Hv). revert v Hv. apply Forall_forall.
  unfold template. destruct (b =? 0); assumption.
Qed.

Lemma bits_to_pcm_renders_templates_witness :
  length (Encoder.render Encoder.BIT0 Encoder.BIT1 [1; 0; 1])
  = (64 * length [1; 0; 1])%nat
  /\ Forall is_byte (Encoder.render Encoder.BIT0 Encoder.BIT1 [1; 0; 1])
  /\ exists b0 b1,
       Encoder.scale 1%float Encoder.BIT0 = Some b0
       /\ Encoder.scale 1%float Encoder.BIT1 = Some b1
       /\ length b0 = 32%nat /\ length b1 = 32%nat
       /\ frombuffer_i2 (Encoder.render Encoder.BIT0 Encoder.BIT1 [1; 0; 1])
          = flat_map (template b0 b1) [1; 0; 1]
       /\ Forall is_int16
            (frombuffer_i2 (Encoder.render Encoder.BIT0 Encoder.BIT1
                                           [1; 0; 1])).
Proof.
  apply (bits_to_pcm_renders_templates [1; 0; 1] 1%float).
  vm_compute. reflexivity.
Defined.

Lemma scale_sample_unit (v : Z) :
  is_int16 v -> Encoder.scale_sample 1%float v = Some v.
Proof.
  intros Hv.
  assert (Hin : In v (z_range (-32768) (256 * 256))).
  { apply z_range_complete. change (Z.of_nat (256 * 256)) with 65536.
    unfold is_int16 in Hv. lia. }
  assert (Hall : forallb (fun v => match Encoder.scale_sample 1%float v with
                                   | Some sv => sv =? v
                                   | None => false
                                   end)
                         (z_range (-32768) (256 * 256)) = true)
    by (vm_compute; reflexivity).
  rewrite forallb_forall in Hall. specialize (Hall v Hin).
  destruct (Encoder.scale_sample 1%float v) as [sv|]; [|discriminate].
  apply Z.eqb_eq in Hall. now subst sv.
Qed.

(** X10: amplitude 1.0 keeps the amplitude. Every 16-bit sample value is
    scaled to itself, so at 1.0 the encoder renders the templates [BIT0]
    and [BIT1] unchanged. *)
Theorem unit_amplitude_keeps_samples (arr bits : list Z) :
  Forall is_int16 arr ->
  Encoder.scale 1%float arr = Some arr
  /\ Encoder.bits_to_pcm bits 1%float
     = Some (Encoder.render Encoder.BIT0 Encoder.BIT1 bits).
Proof.
  intros Harr. split.
  - induction Harr as [|v arr Hv _ IH]; [reflexivity|].
    cbn [Encoder.scale]. now rewrite scale_sample_unit, IH.
  - unfold Encoder.bits_to_pcm.
    replace (Encoder.scale 1%float Encoder.BIT0) with (Some Encoder.BIT0)
      by (vm_compute; reflexivity).
    replace (Encoder.scale 1%float Encoder.BIT1) with (Some Encoder.BIT1)
      by (vm_compute; reflexivity).
    reflexivity.
Qed.

Lemma unit_amplitude_keeps_samples_witness :
  Encoder.scale 1%float [32767; -32768; 0; 2317]
  = Some [32767; -32768; 0; 2317]
  /\ Encoder.bits_to_pcm [1; 0] 1%float
     = Some (Encoder.render Encoder.BIT0 Encoder.BIT1 [1; 0]).
Proof.
  apply (unit_amplitude_keeps_samples [32767; -32768; 0; 2317] [1; 0]).
  repeat constructor; unfold is_int16; lia.
Defined.

(** The two ways [ensure_newline] can go. *)
Lemma ensure_newline_cases (text : pystr) :
  (exists front, text = front ++ [10] /\ Encoder.ensure_newline text = text)
  \/ ((forall front, text <> front ++ [10])
      /\ Encoder.ensure_newline text = text ++ [10]).
Proof.
  assert (Hrev : forall c r, rev text = c :: r -> text = rev r ++ [c]).
  { intros c r H. rewrite <- (rev_involutive text), H. reflexivity. }
  assert (Hno : forall c r, rev text = c :: r -> c <> 10 ->
                  forall front, text <> front ++ [10]).
  { intros c r H Hc front Ht. rewrite Ht, rev_app_distr in H.
    cbn [rev app] in H. congruence. }
  unfold Encoder.ensure_newline.
  destruct (rev text) as [|c r] eqn:E.
  - right. split; [|reflexivity]. intros front Ht.
    rewrite Ht, rev_app_distr in E. discriminate.
  - destruct c as [|q|q];
      try (right; split; [apply (Hno _ r eq_refl); discriminate
                         | reflexivity]).
    destruct q as [q|q|];
      try (right; split; [apply (Hno _ r eq_refl); discriminate
                         | reflexivity]).
    destruct q as [q|q|];
      try (right; split; [apply (Hno _ r eq_refl); discriminate
                         | reflexivity]).
    destruct q as [q|q|];
      try (right; split; [apply (Hno _ r eq_refl); discriminate
                         | reflexivity]).
    destruct q as [q|q|];
      try (right; split; [apply (Hno _ r eq_refl); discriminate
                         | reflexivity]).
    left. exists (rev r). split; [apply (Hrev _ r eq_refl) | reflexivity].
Qed.

(** X11: the text the encoder sends always ends with a newline; a text that
    ends with one is sent unchanged, any other gets exactly one appended;
    applying the rule twice changes nothing more. *)
Theorem ensure_newline_spec (text : pystr) :
  (exists front, Encoder.ensure_newline text = front ++ [10])
  /\ ((exists front, text = front ++ [10])
      -> Encoder.ensure_newline text = text)
  /\ ((forall front, text <> front ++ [10])
      -> Encoder.ensure_newline text = text ++ [10])
  /\ Encoder.ensure_newline (Encoder.ensure_newline text)
     = Encoder.ensure_newline text.
Proof.
  destruct (ensure_newline_cases text) as [(front & Ht & He) | (Hno & He)].
  - split; [exists front; now rewrite He|]. split; [intros _; exact He|].
    split; [intros H; exfalso; apply (H front Ht)|].
    now rewrite He, He.
  - split; [exists text; exact He|].
    split; [intros (front & Ht); exfalso; apply (Hno front Ht)|].
    split; [intros _; exact He|].
    rewrite He.
    destruct (ensure_newline_cases (text ++ [10]))
      as [(front & _ & He') | (Hno' & _)]; [exact He'|].
    exfalso. apply (Hno' text). reflexivity.
Qed.

Lemma ensure_newline_spec_witness :
  Encoder.ensure_newline hello_world = hello_world ++ [10].
Proof.
  apply (proj1 (proj2 (proj2 (ensure_newline_spec hello_world)))).
  intros front H. apply (f_equal (@rev Z)) in H.
  rewrite rev_app_distr in H. vm_compute in H. discriminate.
Defined.

(** X12: the UART framing takes exactly ten bits per byte, all of them 0
    or 1; the frame of each byte begins with a 0 and ends with a 1, and the
    frame of a byte carries that byte. *)
Theorem uart_bits_frames (payload : list Z) :
  length (Encoder.uart_bits payload) = (10 * length payload)%nat
  /\ Forall is_bit (Encoder.uart_bits payload)
  /\ (Forall is_byte payload ->
      forall k, (k < length payload)%nat ->
        frame_ok (Encoder.uart_bits payload) (10 * k) = true
        /\ frame_val (Encoder.uart_bits payload) (10 * k) = nth k payload 0).
Proof.
  split; [apply uart_bits_length|]. split; [apply uart_bits_are_bits|].
  intros Hp. induction Hp as [|b p Hb Hp IH]; intros k Hk;
    [cbn [length] in Hk; lia|].
  cbn [Encoder.uart_bits].
  destruct k as [|k].
  - destruct (frame_at [] (Encoder.uart_bits p) b Hb) as [Hok Hval].
    cbn [app length] in Hok, Hval. cbn [nth]. split; assumption.
  - cbn [length] in Hk. destruct (IH k ltac:(lia)) as [Hok Hval].
    set (fr := (0 :: Encoder.data_bits_of b) ++ [1]).
    assert (Hshape : (0 :: Encoder.data_bits_of b) ++ [1]
                       ++ Encoder.uart_bits p
                     = fr ++ Encoder.uart_bits p)
      by (subst fr; now rewrite <- app_assoc).
    assert (Hlen : length fr = 10%nat) by reflexivity.
    rewrite Hshape.
    replace (10 * S k)%nat with (length fr + 10 * k)%nat by lia.
    split.
    + unfold frame_ok in *. rewrite length_app, !nth_past_prefix.
      replace (length fr + 10 * k + 9)%nat
        with (length fr + (10 * k + 9))%nat by lia.
      rewrite nth_past_prefix.
      apply andb_prop in Hok as [Hok Hstop].
      apply andb_prop in Hok as [Hl Hstart].
      rewrite Hstart, Hstop, !andb_true_r.
      apply Nat.leb_le in Hl. apply Nat.leb_le. lia.
    + unfold frame_val, slice in *.
      replace (length fr + 10 * k + 1)%nat
        with (length fr + (10 * k + 1))%nat by lia.
      rewrite skipn_past_prefix.
      replace (length fr + 10 * k + 9 - (length fr + (10 * k + 1)))%nat
        with (10 * k + 9 - (10 * k + 1))%nat by lia.
      cbn [nth]. exact Hval.
Qed.

Lemma uart_bits_frames_witness :
  frame_ok (Encoder.uart_bits hello_nl) (10 * 2) = true
  /\ frame_val (Encoder.uart_bits hello_nl) (10 * 2) = nth 2 hello_nl 0.
Proof.
  apply (proj2 (proj2 (uart_bits_frames hello_nl))).
  - repeat constructor; unfold is_byte; lia.
  - vm_compute. lia.
Defined.

Lemma pcm_of_bits (bits : list Z) (amp : float) (pcm : list Z) :
  Encoder.bits_to_pcm bits amp = Some pcm ->
  length pcm = (64 * length bits)%nat
  /\ exists b0 b1,
       length b0 = BIT_SAMPLES /\ length b1 = BIT_SAMPLES
       /\ frombuffer_i2 pcm = flat_map (template b0 b1) bits.
Proof.
  unfold Encoder.bits_to_pcm.
  destruct (negb _); [discriminate|].
  destruct (Encoder.scale amp Encoder.BIT0) as [b0|] eqn:Hb0;
    [|discriminate].
  destruct (Encoder.scale amp Encoder.BIT1) as [b1|] eqn:Hb1;
    [|discriminate].
  intros [= <-].
  destruct (scale_spec amp _ _ Hb0) as [Hl0 Hr0].
  destruct (scale_spec amp _ _ Hb1) as [Hl1 Hr1].
  change (length Encoder.BIT0) with BIT_SAMPLES in Hl0.
  change (length Encoder.BIT1) with BIT_SAMPLES in Hl1.
  split; [now apply render_length|].
  exists b0, b1. rewrite frombuffer_render by assumption. auto.
Qed.

(** X13: whenever [main] writes a file it is one channel of 16-bit
    samples at the override rate when that is positive and at the device's
    rate otherwise; it holds 32 samples for each of the 3 * (44 + 10 n)
    bits of a text of n UTF-8 bytes (newline included), and the decoder's
    reader accepts it and returns exactly those samples. *)
Theorem main_writes_mono_pcm
    (text : pystr) (dev : Encoder.device) (sample_rate : Z) (amp : float)
    (w : Encoder.wav) :
  Encoder.main text dev sample_rate amp = Some w ->
  Encoder.nchannels w = 1
  /\ Encoder.sampwidth w = 2
  /\ Encoder.framerate w
     = (if 0 <? sample_rate then sample_rate
        else Encoder.DEVICE_SAMPLE_RATE dev)
  /\ exists data,
       Encoder.utf8_encode (Encoder.ensure_newline text) = Some data
       /\ length (Encoder.frames w)
          = (64 * (3 * (44 + 10 * length data)))%nat
       /\ exists pcm,
            read_wav_int16 w = inr pcm
            /\ length pcm = (32 * (3 * (44 + 10 * length data)))%nat.
Proof.
  unfold Encoder.main.
  destruct (Encoder.utf8_encode (Encoder.ensure_newline text)) as [data|];
    [|discriminate].
  fold (sent_bits data).
  destruct (Encoder.bits_to_pcm (sent_bits data) amp) as [pcm_bytes|] eqn:Hpcm;
    [|discriminate].
  intros [= <-]. cbn [Encoder.nchannels Encoder.sampwidth Encoder.framerate
                      Encoder.frames].
  destruct (pcm_of_bits (sent_bits data) amp pcm_bytes Hpcm)
    as (Hlen & b0 & b1 & Hl0 & Hl1 & Hread).
  rewrite sent_bits_length in Hlen.
  repeat (split; [reflexivity|]).
  exists data. split; [reflexivity|]. split; [exact Hlen|].
  rewrite read_mono. eexists. split; [reflexivity|].
  rewrite length_map, Hread, template_samples_length by assumption.
  rewrite sent_bits_length. unfold BIT_SAMPLES. lia.
Qed.

Lemma main_writes_mono_pcm_witness :
  Encoder.framerate (written (Encoder.main hello_world Encoder.ls2 0 1%float))
  = 16000.
Proof.
  exact (proj1 (proj2 (proj2
           (main_writes_mono_pcm hello_world Encoder.ls2 0 1%float
              (written (Encoder.main hello_world Encoder.ls2 0 1%float))
              (written_some
                 (Encoder.main hello_world Encoder.ls2 0 1%float)
                 ltac:(vm_compute; reflexivity)))))).
Defined.

(** ** More on the decoder *)



#[local] Transparent body_text.

Lemma lstrip_nul_head (text : pystr) : hd 1 (lstrip_nul text) <> 0.
Proof.
  induction text as [|c text IH]; cbn [lstrip_nul hd]; [lia|].
  destruct (Z.eqb_spec c 0) as [-> | Hc]; [exact IH | exact Hc].
Qed.

Lemma lstrip_nul_suffix (text : pystr) :
  exists pre, text = pre ++ lstrip_nul text.
Proof.
  induction text as [|c text IH]; [now exists []|].
  cbn [lstrip_nul]. destruct (c =? 0); [|now exists []].
  destruct IH as (pre & Hpre). exists (c :: pre). cbn [app]. now f_equal.
Qed.

Lemma strip_nul_ends (text : pystr) :
  hd 1 (strip_nul text) <> 0 /\ hd 1 (rev (strip_nul text)) <> 0.
Proof.
  unfold strip_nul. rewrite rev_involutive.
  split; [|apply lstrip_nul_head].
  destruct (lstrip_nul_suffix (rev (lstrip_nul text))) as (pre & Hpre).
  set (v := lstrip_nul (rev (lstrip_nul text))) in *.
  assert (Hu : lstrip_nul text = rev v ++ rev pre)
    by (rewrite <- rev_app_distr, <- Hpre; symmetry; apply rev_involutive).
  pose proof (lstrip_nul_head text) as Hhd. rewrite Hu in Hhd.
  destruct (rev v) as [|x r]; [cbn; lia | exact Hhd].
Qed.

(** X15: a decoded text never has more characters than the body has bytes,
    and it neither begins nor ends with a NUL character. *)
Theorem body_text_is_trimmed (body : list Z) :
  (length (body_text body) <= length body)%nat
  /\ hd 1 (body_text body) <> 0
  /\ hd 1 (rev (body_text body)) <> 0.
Proof.
  split; [apply body_text_length|]. unfold body_text. apply strip_nul_ends.
Qed.

#[local] Opaque body_text.

(** A sequence of equal bits has no start candidate. *)
Lemma constant_bits_no_start (c : Z) (n : nat) : find_frames (repeat c n) = [].
Proof.
  destruct (find_frames (repeat c n)) as [|s rest] eqn:E; [reflexivity|].
  assert (Hs : In s (find_frames (repeat c n))) by (rewrite E; now left).
  apply find_frames_run_end in Hs as (Hlen & Hbit & Hs8 & Hrun).
  rewrite repeat_length in Hlen.
  specialize (Hrun (s - 1)%nat ltac:(lia)).
  rewrite nth_repeat_lt in Hbit, Hrun by lia. contradiction.
Qed.

Lemma apply_polarity_repeat (c : Z) (n : nat) (flip : bool) :
  apply_polarity (repeat c n) flip = repeat (if flip then 1 - c else c) n.
Proof. unfold apply_polarity. apply map_repeat. Qed.

Lemma constant_bits_undecodable (c : Z) (n : nat) :
  decode_bits (repeat c n) = inl NoValidFrame.
Proof.
  rewrite decode_bits_longer_of, !decode_with_polarity_longest.
  unfold validated_texts. rewrite !apply_polarity_repeat.
  now rewrite !constant_bits_no_start.
Qed.

(** X16: when the classifier gives every block the same label (silence, or
    one tone throughout) the decoder finds no start candidate in either
    polarity and fails with [NoValidFrame]. *)
Theorem constant_labels_decode_to_nothing (c : Z) (n : nat) :
  find_frames (repeat c n) = []
  /\ find_frames (apply_polarity (repeat c n) true) = []
  /\ decode_bits (repeat c n) = inl NoValidFrame.
Proof.
  split; [apply constant_bits_no_start|].
  split; [rewrite apply_polarity_repeat; apply constant_bits_no_start|].
  apply constant_bits_undecodable.
Qed.

(** ** Texts too short to come back *)







(** ** Two channels *)









(** ** Text through the encoder and back *)

Lemma utf8_scan_run (data rest : list Z) :
  forall st,
    utf8_scan st (data ++ rest)
    = fst (utf8_run st data) ++ utf8_scan (snd (utf8_run st data)) rest.
Proof.
  induction data as [|b data IH]; intros st; [reflexivity|].
  cbn [app utf8_scan utf8_run].
  destruct (utf8_step st b) as [out st']. rewrite IH.
  destruct (utf8_run st' data) as [out' st'']. cbn [fst snd].
  now rewrite app_assoc.
Qed.

Lemma utf8_run_app (xs ys : list Z) :
  forall st,
    utf8_run st (xs ++ ys)
    = (fst (utf8_run st xs) ++ fst (utf8_run (snd (utf8_run st xs)) ys),
       snd (utf8_run (snd (utf8_run st xs)) ys)).
Proof.
  induction xs as [|b xs IH]; intros st.
  - cbn [app utf8_run fst snd]. now destruct (utf8_run st ys).
  - cbn [app utf8_run]. destruct (utf8_step st b) as [out st'].
    rewrite IH. destruct (utf8_run st' xs) as [out' st'']. cbn [fst snd].
    now rewrite app_assoc.
Qed.

Lemma all_leads_ok : forallb lead_ok (z_range 2 (17 * 1024 - 2)) = true.
Proof. vm_compute. reflexivity. Qed.

Lemma all_tails_ok : forallb tail_ok (z_range 0 64) = true.
Proof. vm_compute. reflexivity. Qed.

Lemma utf8_lead_run (h : Z) :
  2 <= h < 0x4400 ->
  ~ (0x360 <= h <= 0x37F) ->
  utf8_run Idle (utf8_lead h) = ([], Pending 1 h 0x80 0xBF).
Proof.
  intros Hh Hsur.
  pose proof (proj1 (forallb_forall _ _) all_leads_ok h) as H.
  assert (Hin : In h (z_range 2 (17 * 1024 - 2))).
  { apply z_range_complete.
    change (Z.of_nat (17 * 1024 - 2)) with 17406. lia. }
  specialize (H Hin). unfold lead_ok in H.
  apply orb_true_iff in H as [H | H].
  - apply andb_true_iff in H as [H1 H2].
    apply Z.leb_le in H1. apply Z.leb_le in H2. exfalso. apply Hsur. lia.
  - revert H. generalize (utf8_run Idle (utf8_lead h)).
    intros [[|o out] [|[|[|n]] cp lo hi]]; try discriminate.
    intros H. apply andb_true_iff in H as [H H3].
    apply andb_true_iff in H as [H1 H2].
    apply Z.eqb_eq in H1, H2, H3. now subst.
Qed.

Lemma low_six_bits (c : Z) : 0 <= Z.land c 0x3F < 64.
Proof.
  change 0x3F with (Z.ones 6). rewrite Z.land_ones by lia.
  change (2 ^ 6) with 64. apply Z.mod_pos_bound. lia.
Qed.

Lemma utf8_tail_step (h c : Z) :
  utf8_step (Pending 1 h 0x80 0xBF) (Z.lor 0x80 (Z.land c 0x3F))
  = ([Some (Z.lor (Z.shiftl h 6) (Z.land c 0x3F))], Idle).
Proof.
  pose proof (proj1 (forallb_forall _ _) all_tails_ok (Z.land c 0x3F)) as H.
  assert (Hin : In (Z.land c 0x3F) (z_range 0 64)).
  { apply z_range_complete. pose proof (low_six_bits c).
    change (Z.of_nat 64) with 64. lia. }
  specialize (H Hin). unfold tail_ok in H. cbv zeta in H.
  apply andb_true_iff in H as [H H3]. apply Z.eqb_eq in H3.
  cbn [utf8_step]. rewrite H, H3. reflexivity.
Qed.

Lemma join_six_bits (c : Z) :
  0 <= c -> Z.lor (Z.shiftl (Z.shiftr c 6) 6) (Z.land c 0x3F) = c.
Proof.
  intros _. rewrite <- Z.ldiff_ones_r by lia.
  change 0x3F with (Z.ones 6). apply Z.lor_ldiff_and.
Qed.

(** A character of two or more bytes: its leading bytes depend on
    [c >> 6] only, its last byte on the low six bits. *)
Lemma utf8_encode_char_split (c : Z) (bs : list Z) :
  0x80 <= c ->
  Encoder.utf8_encode_char c = Some bs ->
  bs = utf8_lead (Z.shiftr c 6) ++ [Z.lor 0x80 (Z.land c 0x3F)]
  /\ 2 <= Z.shiftr c 6 < 0x4400
  /\ ~ (0x360 <= Z.shiftr c 6 <= 0x37F).
Proof.
  intros Hc. unfold Encoder.utf8_encode_char, utf8_lead.
  assert (Hh : Z.shiftr c 6 = c / 64) by (now rewrite Z.shiftr_div_pow2).
  rewrite !Z.shiftr_shiftr by lia. cbn [Z.add Pos.add Pos.succ].
  destruct (Z.ltb_spec c 0) as [H0 | H0]; [lia|].
  destruct (Z.ltb_spec c 0x80) as [H1 | H1]; [lia|].
  destruct (Z.ltb_spec c 0x800) as [H2 | H2].
  { intros [= <-].
    destruct (Z.ltb_spec (Z.shiftr c 6) 0x20) as [G | G];
      [|rewrite Hh in G; Z.to_euclidean_division_equations; lia].
    split; [reflexivity|].
    rewrite Hh. Z.to_euclidean_division_equations. lia. }
  destruct (Z.ltb_spec c 0x10000) as [H3 | H3].
  { destruct (Z.leb_spec 0xD800 c) as [S1 | S1];
      destruct (Z.leb_spec c 0xDFFF) as [S2 | S2]; cbn [andb];
      try discriminate; intros [= <-];
      (destruct (Z.ltb_spec (Z.shiftr c 6) 0x20) as [G | G];
        [rewrite Hh in G; Z.to_euclidean_division_equations; lia|]);
      (destruct (Z.ltb_spec (Z.shiftr c 6) 0x400) as [G' | G'];
        [|rewrite Hh in G'; Z.to_euclidean_division_equations; lia]);
      (split; [reflexivity|]);
      rewrite Hh; Z.to_euclidean_division_equations; lia. }
  destruct (Z.ltb_spec c 0x110000) as [H4 | H4]; [|discriminate].
  intros [= <-].
  destruct (Z.ltb_spec (Z.shiftr c 6) 0x20) as [G | G];
    [rewrite Hh in G; Z.to_euclidean_division_equations; lia|].
  destruct (Z.ltb_spec (Z.shiftr c 6) 0x400) as [G' | G'];
    [rewrite Hh in G'; Z.to_euclidean_division_equations; lia|].
  split; [reflexivity|].
  rewrite Hh. Z.to_euclidean_division_equations. lia.
Qed.

(** The decoder reads the bytes of one encoded character as that
    character, and is idle again after them. *)
Lemma utf8_char_roundtrip (c : Z) (bs : list Z) :
  Encoder.utf8_encode_char c = Some bs ->
  utf8_run Idle bs = ([Some c], Idle)
  /\ (1 <= length bs <= 4)%nat.
Proof.
  intros Henc. destruct (Z.lt_ge_cases c 0x80) as [Hsmall | Hbig].
  - revert Henc. unfold Encoder.utf8_encode_char.
    destruct (Z.ltb_spec c 0) as [H0 | H0]; [discriminate|].
    destruct (Z.ltb_spec c 0x80) as [H1 | H1]; [|lia].
    intros [= <-]. cbn [utf8_run utf8_step length]. unfold utf8_start.
    replace ((0 <=? c) && (c <=? 0x7F)) with true
      by (symmetry; apply andb_true_iff; split; apply Z.leb_le; lia).
    split; [reflexivity | lia].
  - destruct (utf8_encode_char_split c bs Hbig Henc) as (-> & Hh & Hsur).
    rewrite utf8_run_app, (utf8_lead_run _ Hh Hsur). cbn [fst snd app].
    cbn [utf8_run]. rewrite utf8_tail_step, join_six_bits by lia.
    split; [reflexivity|].
    rewrite length_app. cbn [length]. unfold utf8_lead.
    destruct (_ <? 0x20); [cbn [length]; lia|].
    destruct (_ <? 0x400); cbn [length]; lia.
Qed.

Lemma utf8_text_roundtrip (text : pystr) :
  forall data,
    Encoder.utf8_encode text = Some data ->
    utf8_scan Idle data = map Some text
    /\ (length text <= length data <= 4 * length text)%nat.
Proof.
  induction text as [|c text IH]; intros data.
  - intros [= <-]. split; [reflexivity | cbn [length]; lia].
  - cbn [Encoder.utf8_encode].
    destruct (Encoder.utf8_encode_char c) as [bs|] eqn:Ec; [|discriminate].
    destruct (Encoder.utf8_encode text) as [bs'|]; [|discriminate].
    intros [= <-]. destruct (IH bs' eq_refl) as [Hscan Hlen].
    destruct (utf8_char_roundtrip c bs Ec) as [Hrun Hbs].
    rewrite utf8_scan_run, Hrun. cbn [fst snd app map]. rewrite Hscan.
    split; [reflexivity|]. rewrite length_app. cbn [length]. lia.
Qed.

#[local] Transparent body_text.

(** X19: the decoder's text stage undoes the encoder's. For every text
    the encoder can encode, strict UTF-8 decoding of the encoded bytes
    succeeds and returns the text, so the replacement fallback is not
    used (and would give the same text); the body's text is the sent text
    with CR LF replaced by LF and NULs stripped at both ends. The encoding
    takes between one and four bytes per character. *)
Theorem encoded_text_decodes_strictly (text : pystr) (data : list Z) :
  Encoder.utf8_encode text = Some data ->
  decode_utf8_strict data = Some text
  /\ decode_utf8_replace data = text
  /\ body_text data = strip_nul (replace_crlf text)
  /\ (length text <= length data <= 4 * length text)%nat.
Proof.
  intros Henc. destruct (utf8_text_roundtrip text data Henc) as [Hscan Hlen].
  assert (Hstrict : decode_utf8_strict data = Some text).
  { unfold decode_utf8_strict. rewrite Hscan. apply all_decoded_some. }
  split; [exact Hstrict|]. split.
  - unfold decode_utf8_replace. rewrite Hscan, map_map. apply map_id.
  - split; [|exact Hlen]. unfold body_text. rewrite Hstrict. reflexivity.
Qed.

#[local] Opaque body_text.

Lemma encoded_text_decodes_strictly_witness :
  Encoder.utf8_encode [0x3042; 13; 10; 0xE9; 0x1F600; 10]
  = Some [0xE3; 0x81; 0x82; 13; 10; 0xC3; 0xA9; 0xF0; 0x9F; 0x98; 0x80; 10]
  /\ body_text [0xE3; 0x81; 0x82; 13; 10; 0xC3; 0xA9; 0xF0; 0x9F; 0x98;
                0x80; 10]
     = strip_nul (replace_crlf [0x3042; 13; 10; 0xE9; 0x1F600; 10]).
Proof.
  assert (H : Encoder.utf8_encode [0x3042; 13; 10; 0xE9; 0x1F600; 10]
              = Some [0xE3; 0x81; 0x82; 13; 10; 0xC3; 0xA9;
                      0xF0; 0x9F; 0x98; 0x80; 10])
    by (vm_compute; reflexivity).
  split; [exact H|].
  exact (proj1 (proj2 (proj2 (encoded_text_decodes_strictly _ _ H)))).
Defined.
